(** * BARF code analyzer: a shallow embedding of
    [barf/analysis/codeanalyzer/codeanalyzer.py]

    The analyzer drives two external collaborators, an SMT translator and an
    SMT solver.  Both are taken as parameters: the translator as a record of
    operations over an abstract naming state, the solver as a verdict oracle
    over the history of the session.  Every call the analyzer makes to them
    is recorded, in order, in the [trace] of the [world]; exceptions are
    explicit outcomes and leave the effects performed so far in place, as in
    Python. *)

From Stdlib Require Import ZArith List Lia Ascii.
From Stdlib Require HexadecimalString HexadecimalN HexadecimalPos.
From stdpp Require Import base numbers list strings gmap.

Set Warnings "-register-all".
Local Open Scope string_scope.
Local Open Scope list_scope.
Local Open Scope Z_scope.

(** ** REIL data consumed by the analyzer *)

Module Reil.

(** Modelled from the spec: the REIL mnemonics ([barf.core.reil] is not part
    of the analyzer's file); the analyzer only tests for [JCC]. *)
Inductive ReilMnemonic :=
| ADD | SUB | MUL | DIV | MOD | BSH
| AND | OR | XOR
| LDM | STM | STR
| BISZ | JCC
| UNKN | UNDEF | NOP.

Definition is_JCC (m : ReilMnemonic) : bool :=
  match m with JCC => true | _ => false end.

(** Modelled from the spec: an operand is a register operand, an immediate
    operand, or some other kind (REIL's empty operand). *)
Inductive ReilOperand :=
| ReilRegisterOperand (name : string) (size : Z)
| ReilImmediateOperand (immediate : Z) (size : Z)
| ReilEmptyOperand.

Record ReilInstruction := {
  reil_address : Z;
  mnemonic : ReilMnemonic;
  operands : list ReilOperand
}.

(** The native instruction of a dual instruction; the analyzer reads its
    encoded size only. *)
Record AsmInstruction := { asm_size : Z }.

Record DualInstruction := {
  address : Z;
  asm_instr : AsmInstruction;
  ir_instrs : list ReilInstruction
}.

(** A basic block; iterating it yields its dual instructions in order.
    A branch target that is not set is Python's [None]. *)
Record BasicBlock := {
  bb_address : Z;
  end_address : Z;
  instrs : list DualInstruction;
  taken_branch : option Z;
  not_taken_branch : option Z;
  direct_branch : option Z
}.

End Reil.
Export Reil.

(** ** SMT expressions built by the analyzer *)

Section Expressions.

(** The translator's memory arrays (an array symbol or a chain of stores). *)
Variable Mem : Type.

(** Modelled from the spec: the expression constructors of [smtsymbol],
    [smtfunction] and of the translator's [make_bitvec], as the free syntax
    of the calls that build them. *)
Inductive Expr :=
| BitVec (size : Z) (name : string)          (* make_bitvec(size, name) *)
| Constant (size : Z) (value : Z)            (* smtsymbol.Constant(size, value) *)
| Select (mem : Mem) (addr : Z)              (* mem[addr] *)
| Extract (e : Expr) (offset : Z) (size : Z) (* smtfunction.extract(e, offset, size) *)
| Concat (size : Z) (args : list Expr)       (* smtfunction.concat(size, *args) *)
| Eq (e : Expr) (value : Z).                 (* e == value *)

(** Modelled from the spec: the value of an expression in a model that
    gives [rho name] to the symbol [name] and [mu m a] to the cell [a] of
    the array [m].  [extract] takes [size] bits from bit [offset] up;
    [concat] puts its first argument in the most significant position. *)
Variable rho : string -> Z.
Variable mu : Mem -> Z -> Z.

Definition concat_value (size : Z) (vs : list Z) : Z :=
  fold_left (fun acc v => acc * 2 ^ size + v) vs 0.

Fixpoint eval (e : Expr) : Z :=
  match e with
  | BitVec size name => rho name mod 2 ^ size
  | Constant size value => value mod 2 ^ size
  | Select m a => mu m a mod 2 ^ 8
  | Extract e' offset size => (eval e' / 2 ^ offset) mod 2 ^ size
  | Concat size args => concat_value size (map eval args)
  | Eq e' value => if Z.eqb (eval e') value then 1 else 0
  end.

(** The value whose byte [i] (counting from the least significant) is the
    [i]-th element of the list: little-endian reconstruction. *)
Fixpoint little_endian (bytes : list Z) : Z :=
  match bytes with
  | [] => 0
  | b :: bs => b + 2 ^ 8 * little_endian bs
  end.

End Expressions.

Arguments BitVec {Mem} size name.
Arguments Constant {Mem} size value.
Arguments Select {Mem} mem addr.
Arguments Extract {Mem} e offset size.
Arguments Concat {Mem} size args.
Arguments Eq {Mem} e value.
Arguments eval {Mem} rho mu e.

(** ** Contexts and architecture information *)

Record GenericRegister := {
  reg_name : string;
  reg_size : Z;
  reg_value : Z
}.

Record GenericFlag := {
  flag_name : string;
  flag_value : Z
}.

Record GenericContext := {
  registers : gmap string GenericRegister;
  flags : gmap string GenericFlag;
  memory : gmap Z Z
}.

(** The architecture descriptor, read only.  [alias_mapper] sends a
    sub-register to its base register and bit offset. *)
Record ArchitectureInformation := {
  registers_all : gset string;
  registers_size : gmap string Z;
  alias_mapper : gmap string (string * Z)
}.

(** ** Outcomes, exceptions and the session state *)

Inductive exn :=
| AssertionError               (* a failed [assert] *)
| InvalidOperand               (* Exception("Invalid operand: ...") *)
| InvalidMode                  (* Exception() raised on a mode that is neither "pre" nor "post" *)
| KeyError (key : string)      (* a dictionary subscript on a missing key *)
| IndexError                   (* operands[0] on an empty sequence *)
| TranslatorError (code : Z).  (* anything the translator raises *)

Inductive outcome (A : Type) :=
| Ret (a : A)
| Raise (e : exn).
Arguments Ret {A} a.
Arguments Raise {A} e.

Module Translator.
(** The translator capability over its naming state [TS]. *)
Record t (TS Mem : Type) := {
  translate : ReilInstruction -> TS -> outcome (list (Expr Mem)) * TS;
  _translate_src_oprnd : ReilOperand -> TS -> outcome (Expr Mem) * TS;
  get_init_name : TS -> string -> string;
  get_curr_name : TS -> string -> string;
  get_memory : TS -> Mem;
  get_memory_init : TS -> Mem
}.
Arguments translate {TS Mem}.
Arguments _translate_src_oprnd {TS Mem}.
Arguments get_init_name {TS Mem}.
Arguments get_curr_name {TS Mem}.
Arguments get_memory {TS Mem}.
Arguments get_memory_init {TS Mem}.
End Translator.

(** What the analyzer does to its collaborators, in order.  [logger.info]
    lines are not recorded; [logger.error] is. *)
Inductive event (Mem : Type) :=
| EvTranslate (i : ReilInstruction)                    (* translator.translate(i) *)
| EvAdd (e : Expr Mem)                                 (* solver.add(e) *)
| EvCheck                                              (* solver.check() *)
| EvLogError (d : DualInstruction) (i : ReilInstruction). (* "Unexpected JCC instruction" *)
Arguments EvTranslate {Mem} i.
Arguments EvAdd {Mem} e.
Arguments EvCheck {Mem}.
Arguments EvLogError {Mem} d i.

Record world (TS Mem : Type) := {
  tstate : TS;                          (* the translator's naming state *)
  trace : list (event Mem);             (* the calls made so far *)
  context : option GenericContext       (* self._context *)
}.
Arguments tstate {TS Mem}.
Arguments trace {TS Mem}.
Arguments context {TS Mem}.

Definition is_check {Mem} (ev : event Mem) : bool :=
  match ev with EvCheck => true | _ => false end.

(** No event of [evs] is a call of [solver.check()]. *)
Definition no_check {Mem} (evs : list (event Mem)) : Prop :=
  Forall (fun ev => is_check ev = false) evs.

(** The assertions a trace hands to the solver, in order. *)
Definition asserted {Mem} (evs : list (event Mem)) : list (Expr Mem) :=
  omap (fun ev => match ev with EvAdd e => Some e | _ => None end) evs.

(** The instructions a trace hands to the translator, in order. *)
Definition translated {Mem} (evs : list (event Mem)) : list ReilInstruction :=
  omap (fun ev => match ev with EvTranslate i => Some i | _ => None end) evs.

(** ** The analyzer *)

Module CodeAnalyzer.

Section Analyzer.

Context {TS Mem : Type}.
Variable translator : Translator.t TS Mem.
Variable arch_info : ArchitectureInformation.

(** The solver's verdict at a [check()], as a function of the session so
    far: "sat", "unsat" or "unknown". *)
Variable solver_verdict : list (event Mem) -> string.

(** Python's [__debug__]: true unless the interpreter runs with [-O], in which
    case [assert] statements are not executed. *)
Variable py_debug : bool.

(** Computations of the analyzer: they read and extend the [world] and end in
    a value or in an exception. *)
Definition M (A : Type) : Type := world TS Mem -> outcome A * world TS Mem.

Definition ret {A} (a : A) : M A := fun w => (Ret a, w).
Definition raise {A} (e : exn) : M A := fun w => (Raise e, w).
Definition bind {A B} (m : M A) (k : A -> M B) : M B :=
  fun w => match m w with
           | (Ret a, w') => k a w'
           | (Raise e, w') => (Raise e, w')
           end.

Notation "x <- m ;; k" := (bind m (fun x => k))
  (at level 100, m at next level, right associativity).
Notation "m ;; k" := (bind m (fun _ => k))
  (at level 100, right associativity).

(** A [for] loop whose body neither breaks nor continues. *)
Fixpoint for_each {A} (l : list A) (body : A -> M unit) : M unit :=
  match l with
  | [] => ret tt
  | x :: rest => body x ;; for_each rest body
  end.

Definition emit (ev : event Mem) (w : world TS Mem) : world TS Mem :=
  {| tstate := tstate w; trace := trace w ++ [ev]; context := context w |}.

Definition emit_all (evs : list (event Mem)) (w : world TS Mem) : world TS Mem :=
  {| tstate := tstate w; trace := trace w ++ evs; context := context w |}.

(** [self._solver.add(e)] *)
Definition solver_add (e : Expr Mem) : M unit :=
  fun w => (Ret tt, emit (EvAdd e) w).

(** [self._solver.check()] *)
Definition solver_check : M string :=
  fun w => (Ret (solver_verdict (trace w)), emit EvCheck w).

(** [logger.error("Unexpected JCC instruction: ...")] *)
Definition log_error (d : DualInstruction) (i : ReilInstruction) : M unit :=
  fun w => (Ret tt, emit (EvLogError d i) w).

(** [self._translator.translate(i)] *)
Definition translator_translate (i : ReilInstruction) : M (list (Expr Mem)) :=
  fun w =>
    let (r, ts) := Translator.translate translator i (tstate w) in
    (r, {| tstate := ts; trace := trace w ++ [EvTranslate i]; context := context w |}).

Definition get_tstate : M TS := fun w => (Ret (tstate w), w).

(** A dictionary subscript [d[key]]. *)
Definition subscript {V} (d : gmap string V) (key : string) : M V :=
  match d !! key with
  | Some v => ret v
  | None => raise (KeyError key)
  end.

(** *** Context lowering *)

(** [self._context = ctx] *)
Definition store_context (ctx : GenericContext) : M unit :=
  fun w => (Ret tt, {| tstate := tstate w; trace := trace w; context := Some ctx |}).

(** [d.items()] is [map_to_list d]; the loops over registers and flags read
    the name from the descriptor, not from the key. *)
Definition set_context (ctx : GenericContext) : M unit :=
  store_context ctx ;;
  for_each (map_to_list (registers ctx)) (fun kv =>
    ts <- get_tstate ;;
    let gen_reg := kv.2 in
    let smt_reg := BitVec (reg_size gen_reg)
                     (Translator.get_init_name translator ts (reg_name gen_reg)) in
    solver_add (Eq smt_reg (reg_value gen_reg))) ;;
  for_each (map_to_list (flags ctx)) (fun kv =>
    ts <- get_tstate ;;
    let gen_flag := kv.2 in
    let smt_flag := BitVec 32
                      (Translator.get_init_name translator ts (flag_name gen_flag)) in
    solver_add (Eq smt_flag (flag_value gen_flag))) ;;
  ts <- get_tstate ;;
  let mem := Translator.get_memory translator ts in
  for_each (map_to_list (memory ctx)) (fun kv =>
    solver_add (Eq (Select mem kv.1) kv.2)).

(** *** Operand and expression resolution *)

Definition get_operand_var (operand : ReilOperand) : M (Expr Mem) :=
  fun w =>
    let (r, ts) := Translator._translate_src_oprnd translator operand (tstate w) in
    (r, {| tstate := ts; trace := trace w; context := context w |}).

Definition _get_var_name (register_name : string) (mode : string) : M string :=
  ts <- get_tstate ;;
  if String.eqb mode "pre" then
    ret (Translator.get_init_name translator ts register_name)
  else if String.eqb mode "post" then
    ret (Translator.get_curr_name translator ts register_name)
  else
    raise InvalidMode.

(** The symbolic name [_get_var_name] gives a register under a valid mode. *)
Definition mode_name (ts : TS) (mode : string) (register_name : string) : string :=
  if String.eqb mode "pre" then Translator.get_init_name translator ts register_name
  else Translator.get_curr_name translator ts register_name.

Definition get_immediate_expr (immediate : Z) (size : Z) : M (Expr Mem) :=
  ret (Constant size immediate).

(** [alias_mapper.get(register_name, None)] is a pair when the name is an
    alias, and a pair is true in a condition. *)
Definition get_register_expr (register_name : string) (mode : string) : M (Expr Mem) :=
  match alias_mapper arch_info !! register_name with
  | Some (var_base_name, offset) =>
      var_name <- _get_var_name var_base_name mode ;;
      var_size <- subscript (registers_size arch_info) var_base_name ;;
      let ret_val := BitVec var_size var_name in
      size <- subscript (registers_size arch_info) register_name ;;
      ret (Extract ret_val offset size)
  | None =>
      var_name <- _get_var_name register_name mode ;;
      var_size <- subscript (registers_size arch_info) register_name ;;
      ret (BitVec var_size var_name)
  end.

Definition get_operand_expr (operand : ReilOperand) (mode : string) : M (Expr Mem) :=
  match operand with
  | ReilRegisterOperand name size =>
      if bool_decide (name ∈ registers_all arch_info) then
        get_register_expr name mode
      else
        var_name <- _get_var_name name mode ;;
        ret (BitVec size var_name)
  | ReilImmediateOperand immediate size =>
      get_immediate_expr immediate size
  | ReilEmptyOperand =>
      raise InvalidOperand
  end.

Definition get_memory (mode : string) : M Mem :=
  ts <- get_tstate ;;
  if String.eqb mode "pre" then
    ret (Translator.get_memory_init translator ts)
  else if String.eqb mode "post" then
    ret (Translator.get_memory translator ts)
  else
    raise InvalidMode.

(** [xrange(0, size)] is [seqZ 0 size], empty when [size <= 0]. *)
Definition get_memory_expr (address : Z) (size : Z) (mode : string) : M (Expr Mem) :=
  mem <- get_memory mode ;;
  let bytes_exprs := map (fun index => Select mem (address + index)) (seqZ 0 size) in
  ret (Concat 8 (rev bytes_exprs)).

(** *** Direct assertions *)

Definition add_constraint (constraint : Expr Mem) : M unit :=
  solver_add constraint.

Definition add_instruction (reil_instruction : ReilInstruction) : M unit :=
  smt_exprs <- translator_translate reil_instruction ;;
  for_each smt_exprs solver_add.

(** *** Path satisfiability *)

(** [branch == bb_next.address], where an unset branch is [None]. *)
Definition branch_is (branch : option Z) (addr : Z) : bool :=
  match branch with
  | Some target => Z.eqb target addr
  | None => false
  end.

(** The loop over [dinstr.ir_instrs]: [continue] goes on with the rest,
    [break] leaves the loop. *)
Fixpoint reil_loop (bb_curr bb_next : BasicBlock) (dinstr : DualInstruction)
    (reil_instrs : list ReilInstruction) : M unit :=
  match reil_instrs with
  | [] => ret tt
  | reil_instr :: rest =>
      if is_JCC (mnemonic reil_instr) then
        if negb (Z.eqb (address dinstr + asm_size (asm_instr dinstr) - 1)
                       (end_address bb_curr)) then
          log_error dinstr reil_instr ;;
          reil_loop bb_curr bb_next dinstr rest
        else if py_debug &&
                negb (branch_is (taken_branch bb_curr) (bb_address bb_next) ||
                      branch_is (not_taken_branch bb_curr) (bb_address bb_next) ||
                      branch_is (direct_branch bb_curr) (bb_address bb_next)) then
          raise AssertionError
        else if branch_is (taken_branch bb_curr) (bb_address bb_next) then
          match operands reil_instr with
          | [] => raise IndexError
          | operand :: _ =>
              branch_var <- get_operand_var operand ;;
              add_constraint (Eq branch_var 1)
          end
        else if branch_is (not_taken_branch bb_curr) (bb_address bb_next) then
          match operands reil_instr with
          | [] => raise IndexError
          | operand :: _ =>
              branch_var <- get_operand_var operand ;;
              add_constraint (Eq branch_var 0)
          end
        else
          reil_loop bb_curr bb_next dinstr rest
      else
        smt_exprs <- translator_translate reil_instr ;;
        for_each smt_exprs solver_add ;;
        reil_loop bb_curr bb_next dinstr rest
  end.

(** The loop over the dual instructions of [bb_curr]; it returns
    [start_instr_found]. *)
Fixpoint dinstr_loop (bb_curr bb_next : BasicBlock) (start_address : Z)
    (dinstrs : list DualInstruction) (start_instr_found : bool) : M bool :=
  match dinstrs with
  | [] => ret start_instr_found
  | dinstr :: rest =>
      if negb start_instr_found && negb (Z.eqb (address dinstr) start_address) then
        dinstr_loop bb_curr bb_next start_address rest false
      else
        reil_loop bb_curr bb_next dinstr (ir_instrs dinstr) ;;
        dinstr_loop bb_curr bb_next start_address rest true
  end.

(** The loop over [zip(path[:-1], path[1:])]; it returns [sat]. *)
Fixpoint block_loop (start_address : Z) (pairs : list (BasicBlock * BasicBlock))
    (start_instr_found : bool) (sat : bool) : M bool :=
  match pairs with
  | [] => ret sat
  | (bb_curr, bb_next) :: rest =>
      found <- dinstr_loop bb_curr bb_next start_address (instrs bb_curr) start_instr_found ;;
      verdict <- solver_check ;;
      let sat' := String.eqb verdict "sat" in
      if negb sat' then ret sat'
      else block_loop start_address rest found sat'
  end.

Definition check_path_satisfiability (path : list BasicBlock) (start_address : Z) : M bool :=
  block_loop start_address (combine (removelast path) (tl path)) false false.

(** [segments] are the events of the instructions of the leading blocks of
    [pairs], block by block, when the fold starts in [w] and every block is
    followed by one check: what "one check after each block" means for a
    trace. *)
Fixpoint processed_blocks (start_address : Z) (pairs : list (BasicBlock * BasicBlock))
    (start_instr_found : bool) (w : world TS Mem)
    (segments : list (list (event Mem))) {struct segments} : Prop :=
  match segments, pairs with
  | [], _ => True
  | _ :: _, [] => False
  | evs :: segments', (bb_curr, bb_next) :: rest =>
      exists found w1,
        dinstr_loop bb_curr bb_next start_address (instrs bb_curr) start_instr_found w =
          (Ret found, w1) /\
        trace w1 = trace w ++ evs /\
        no_check evs /\
        processed_blocks start_address rest found (emit EvCheck w1) segments'
  end.

End Analyzer.

Arguments M TS Mem A : clear implicits.

End CodeAnalyzer.
Import CodeAnalyzer.

(** ** A small concrete session

    A translator that numbers its translations, a three-register slice of
    x86, and a few blocks; used to run the analyzer on concrete inputs. *)

Definition demo_translate (i : ReilInstruction) (ts : nat)
  : outcome (list (Expr string)) * nat :=
  (Ret [Eq (BitVec 32 "t0") (reil_address i)], S ts).

Definition demo_translate_src_oprnd (o : ReilOperand) (ts : nat)
  : outcome (Expr string) * nat :=
  match o with
  | ReilRegisterOperand name size => (Ret (BitVec size name), ts)
  | ReilImmediateOperand immediate size => (Ret (Constant size immediate), ts)
  | ReilEmptyOperand => (Raise InvalidOperand, ts)
  end.

Definition demo_translator : Translator.t nat string := {|
  Translator.translate := demo_translate;
  Translator._translate_src_oprnd := demo_translate_src_oprnd;
  Translator.get_init_name := fun _ r => r +:+ "_0";
  Translator.get_curr_name := fun ts r => r +:+ (if Nat.eqb ts 0 then "_0" else "_1");
  Translator.get_memory := fun ts => if Nat.eqb ts 0 then "MEM_0" else "MEM_1";
  Translator.get_memory_init := fun _ => "MEM_0"
|}.

Definition demo_arch : ArchitectureInformation := {|
  registers_all := {[ "eax"; "ax"; "ah" ]};
  registers_size := <[ "eax" := 32 ]> (<[ "ax" := 16 ]> (<[ "ah" := 8 ]> ∅));
  alias_mapper := <[ "ax" := ("eax", 0) ]> (<[ "ah" := ("eax", 8) ]> ∅)
|}.

Definition always_sat (_ : list (event string)) : string := "sat".

Definition demo_world : world nat string :=
  {| tstate := 0%nat; trace := []; context := None |}.

Definition demo_context : GenericContext := {|
  registers := {[ "eax" := {| reg_name := "eax"; reg_size := 32; reg_value := 5 |} ]};
  flags := {[ "zf" := {| flag_name := "zf"; flag_value := 1 |} ]};
  memory := {[ 4096 := 255 ]}
|}.

Definition add_instr (a : Z) : ReilInstruction :=
  {| reil_address := a; mnemonic := ADD;
     operands := [ReilRegisterOperand "eax" 32; ReilImmediateOperand 1 32;
                  ReilRegisterOperand "eax" 32] |}.

Definition jcc_instr (a : Z) : ReilInstruction :=
  {| reil_address := a; mnemonic := JCC;
     operands := [ReilRegisterOperand "t1" 1; ReilEmptyOperand;
                  ReilImmediateOperand 8192 40] |}.

Definition dual (a : Z) (size : Z) (irs : list ReilInstruction) : DualInstruction :=
  {| address := a; asm_instr := {| asm_size := size |}; ir_instrs := irs |}.

(** Block A: [0x10: add] then [0x12: jcc], two bytes each, ending at 0x13. *)
Definition block_a (taken not_taken direct : option Z) : BasicBlock := {|
  bb_address := 16;
  end_address := 19;
  instrs := [dual 16 2 [add_instr 4096]; dual 18 2 [add_instr 4608; jcc_instr 4609]];
  taken_branch := taken;
  not_taken_branch := not_taken;
  direct_branch := direct
|}.

(** Block B: [0x20: add] then [0x22: add], falling through to 0x30. *)
Definition block_b : BasicBlock := {|
  bb_address := 32;
  end_address := 35;
  instrs := [dual 32 2 [add_instr 8192]; dual 34 2 [add_instr 8704]];
  taken_branch := None;
  not_taken_branch := None;
  direct_branch := Some 48
|}.

Definition block_c : BasicBlock := {|
  bb_address := 48;
  end_address := 49;
  instrs := [dual 48 2 [add_instr 12288]];
  taken_branch := None;
  not_taken_branch := None;
  direct_branch := None
|}.

(** A block whose conditional jump sits in the middle, not at its end. *)
Definition block_misplaced : BasicBlock := {|
  bb_address := 16;
  end_address := 21;
  instrs := [dual 16 2 [jcc_instr 4096; add_instr 4097]; dual 18 4 [add_instr 4608]];
  taken_branch := Some 32;
  not_taken_branch := None;
  direct_branch := None
|}.

(** A block that is a single conditional jump followed by one more IR
    instruction of the same native instruction. *)
Definition block_j (taken not_taken direct : option Z) : BasicBlock := {|
  bb_address := 16;
  end_address := 17;
  instrs := [dual 16 2 [jcc_instr 4096; add_instr 4097]];
  taken_branch := taken;
  not_taken_branch := not_taken;
  direct_branch := direct
|}.

Definition demo_path : list BasicBlock :=
  [block_a (Some 32) None None; block_b; block_c].

(** The world in which the check of [demo_path] from 0x10 ends. *)
Definition demo_final : world nat string := Eval vm_compute in
    snd (check_path_satisfiability demo_translator always_sat true demo_path 16 demo_world).

(** A path entered in the middle of its second block. *)
Definition late_path : list BasicBlock :=
  [block_a None None (Some 32); block_b; block_c].

(** The number of calls of [solver.check()] in [evs]. *)
Definition count_checks {Mem} (evs : list (event Mem)) : nat :=
  length (List.filter is_check evs).

(** ** The rest of the analyzer's interface

    [get_context], the direct assertion calls, [check], [get_expr_value] and
    [reset].  They need three more things from the collaborators: the
    solver's table of declared symbols, its model values, and the
    translator's own reset. *)

Module Session.

Section Session.

Context {TS Mem : Type}.
Variable translator : Translator.t TS Mem.

(** [self._translator.reset()] *)
Variable translator_reset : TS -> TS.

Variable solver_verdict : list (event Mem) -> string.

(** [self._solver.declarations] and [self._solver.get_value], as the session
    stands; [get_value] raises when the solver has no model. *)
Variable solver_declarations : list (event Mem) -> gmap string (Expr Mem).
Variable solver_get_value : list (event Mem) -> Expr Mem -> outcome Z.

Local Notation "x <- m ;; k" := (bind m (fun x => k))
  (at level 100, m at next level, right associativity).
Local Notation "m ;; k" := (bind m (fun _ => k))
  (at level 100, right associativity).

(** [self._solver.declarations[name]] *)
Definition declaration (name : string) : M TS Mem (Expr Mem) :=
  fun w => subscript (solver_declarations (trace w)) name w.

(** [self._solver.get_value(e)] *)
Definition get_value (e : Expr Mem) : M TS Mem Z :=
  fun w => (solver_get_value (trace w) e, w).

(** A loop [for k, a in items: d[k] = body(k, a)] over a dictionary [d]. *)
Fixpoint build_dict `{Countable K} {A B} (items : list (K * A))
    (body : K -> A -> M TS Mem B) (d : gmap K B) : M TS Mem (gmap K B) :=
  match items with
  | [] => ret d
  | (k, a) :: rest =>
      b <- body k a ;;
      build_dict rest body (<[k := b]> d)
  end.

(** The body of [get_context], for the stored context [ctx]. *)
Definition get_context_from (ctx : GenericContext) : M TS Mem GenericContext :=
  registers' <- build_dict (map_to_list (registers ctx)) (fun reg_name gen_reg =>
    ts <- get_tstate ;;
    symbol <- declaration (Translator.get_curr_name translator ts reg_name) ;;
    value <- get_value symbol ;;
    ret {| reg_name := reg_name; reg_size := reg_size gen_reg; reg_value := value |}) ∅ ;;
  flags' <- build_dict (map_to_list (flags ctx)) (fun flag_name _ =>
    ts <- get_tstate ;;
    symbol <- declaration (Translator.get_curr_name translator ts flag_name) ;;
    value <- get_value symbol ;;
    ret {| flag_name := flag_name; flag_value := value |}) ∅ ;;
  ts <- get_tstate ;;
  let mem := Translator.get_memory translator ts in
  memory' <- build_dict (map_to_list (memory ctx)) (fun addr _ =>
    get_value (Select mem addr)) ∅ ;;
  ret {| registers := registers'; flags := flags'; memory := memory' |}.

(** A call that reads an attribute of [self._context]: with no context set,
    [None] has no such attribute. *)
Inductive needs_context (A : Type) :=
| AttributeError
| Completed (r : outcome A).
Arguments AttributeError {A}.
Arguments Completed {A} r.

Definition get_context (w : world TS Mem)
  : needs_context GenericContext * world TS Mem :=
  match context w with
  | None => (AttributeError, w)
  | Some ctx => let (r, w') := get_context_from ctx w in (Completed r, w')
  end.

Definition set_preconditions (conditions : list (Expr Mem)) : M TS Mem unit :=
  for_each conditions solver_add.

Definition set_postconditions (conditions : list (Expr Mem)) : M TS Mem unit :=
  for_each conditions solver_add.

Definition check : M TS Mem string := solver_check solver_verdict.

Definition get_expr_value (e : Expr Mem) : M TS Mem Z := get_value e.

(** Modelled from the spec: [self._solver.reset()] clears the solver's
    assertion stack, so the session its verdicts depend on starts afresh. *)
Definition solver_reset : M TS Mem unit :=
  fun w => (Ret tt, {| tstate := tstate w; trace := []; context := context w |}).

Definition reset (full : bool) : M TS Mem unit :=
  solver_reset ;;
  if full then
    fun w => (Ret tt, {| tstate := translator_reset (tstate w);
                         trace := trace w; context := context w |})
  else ret tt.

(** The assertions [set_context] makes for [ctx] when the translator is in
    state [ts], in the order it makes them. *)
Definition context_assertions (ts : TS) (ctx : GenericContext) : list (Expr Mem) :=
  ((fun kv : string * GenericRegister =>
      Eq (BitVec (reg_size kv.2)
            (Translator.get_init_name translator ts (reg_name kv.2)))
         (reg_value kv.2)) <$> map_to_list (registers ctx)) ++
  ((fun kv : string * GenericFlag =>
      Eq (BitVec 32 (Translator.get_init_name translator ts (flag_name kv.2)))
         (flag_value kv.2)) <$> map_to_list (flags ctx)) ++
  ((fun kv : Z * Z =>
      Eq (Select (Translator.get_memory translator ts) kv.1) kv.2)
     <$> map_to_list (memory ctx)).

End Session.

Arguments AttributeError {A}.
Arguments Completed {A} r.

End Session.
Import Session.

(** ** Printing registers, flags and contexts *)

Module Printing.

(** ["%x" % n] for a natural number: lower-case hexadecimal digits, no
    prefix, at least one digit. *)
Definition hex (n : N) : string :=
  HexadecimalString.NilZero.string_of_uint (N.to_hex_uint n).

Fixpoint zeros (k : nat) : string :=
  match k with
  | O => ""
  | S k' => String "0"%char (zeros k')
  end.

(** ["%08x" % v]: the sign of a negative value, then zeros up to a width of
    eight characters, then the digits. *)
Definition format_08x (v : Z) : string :=
  let digits := hex (Z.abs_N v) in
  if v <? 0 then String "-"%char (zeros (7 - String.length digits) +:+ digits)
  else zeros (8 - String.length digits) +:+ digits.

Definition newline : string := String "010"%char "".

(** [GenericRegister.__str__] *)
Definition GenericRegister_str (r : GenericRegister) : string :=
  reg_name r +:+ " : 0x" +:+ format_08x (reg_value r).

(** [GenericFlag.__str__] *)
Definition GenericFlag_str (f : GenericFlag) : string :=
  flag_name f +:+ " : 0x" +:+ format_08x (flag_value f).

(** [GenericContext.__str__]; each loop appends one line per item. *)
Definition GenericContext_str (ctx : GenericContext) : string :=
  let string := "[+] Context :" +:+ newline in
  let string := string +:+ "    * Registers :" +:+ newline in
  let string :=
    fold_left (fun string kv => string +:+ "        " +:+ GenericRegister_str kv.2 +:+ newline)
              (map_to_list (registers ctx)) string in
  let string := string +:+ "    * Flags :" +:+ newline in
  let string :=
    fold_left (fun string kv => string +:+ "        " +:+ GenericFlag_str kv.2 +:+ newline)
              (map_to_list (flags ctx)) string in
  let string := string +:+ "    * Memory :" +:+ newline in
  fold_left (fun string kv =>
               string +:+ ("        0x" +:+ format_08x kv.1 +:+ " : 0x" +:+ format_08x kv.2)
                      +:+ newline)
            (map_to_list (memory ctx)) string.

(** Reading a hexadecimal number with an optional sign and any number of
    leading zeros. *)
Definition parse_hex (s : string) : option Z :=
  match s with
  | String "-"%char s' =>
      (fun d => - Z.of_N (N.of_hex_uint d)) <$>
        HexadecimalString.NilEmpty.uint_of_string s'
  | _ =>
      (fun d => Z.of_N (N.of_hex_uint d)) <$>
        HexadecimalString.NilEmpty.uint_of_string s
  end.

End Printing.
Import Printing.

(** ** More of the concrete session *)

(** A solver that has declared the two symbols of [demo_context] and whose
    model gives 6 to every symbol and 255 to every memory cell. *)
Definition demo_declarations (_ : list (event string)) : gmap string (Expr string) :=
  <[ "eax_0" := BitVec 32 "eax_0" ]> (<[ "zf_0" := BitVec 32 "zf_0" ]> ∅).

Definition demo_get_value (_ : list (event string)) (e : Expr string) : outcome Z :=
  Ret (eval (fun _ => 6) (fun _ _ => 255) e).

(** What [get_context] reads back for [demo_context] in [demo_world]. *)
Definition demo_read_context : GenericContext := {|
  registers := {[ "eax" := {| reg_name := "eax"; reg_size := 32; reg_value := 6 |} ]};
  flags := {[ "zf" := {| flag_name := "zf"; flag_value := 6 |} ]};
  memory := {[ 4096 := 255 ]}
|}.

(** Another block at the address of [block_c]. *)
Definition block_c_other : BasicBlock := {|
  bb_address := 48;
  end_address := 53;
  instrs := [dual 48 2 [add_instr 12288]; dual 50 4 [jcc_instr 12800]];
  taken_branch := Some 16;
  not_taken_branch := Some 54;
  direct_branch := None
|}.

(** ** A path check seen from inside a block *)

Module PathCheck.

Section PathCheck.

Context {TS Mem : Type}.
Variable translator : Translator.t TS Mem.
Variable solver_verdict : list (event Mem) -> string.
Variable py_debug : bool.

(** [zip(path[:-1], path[1:])] *)
Definition consecutive (path : list BasicBlock) : list (BasicBlock * BasicBlock) :=
  combine (removelast path) (tl path).

(** Some instruction of [blocks] has address [start_address]: the value of
    [start_instr_found] once the loops have gone through [blocks]. *)
Definition start_found (start_address : Z) (blocks : list BasicBlock) : bool :=
  existsb (fun bb => existsb (fun d => Z.eqb (address d) start_address) (instrs bb))
          blocks.

(** What is left of [check_path_satisfiability] when the loop over the IR
    instructions of [dinstr], a native instruction of [bb_curr], stands before
    [reil_instrs]: these instructions, then the native instructions [dinstrs]
    that follow [dinstr] in the block, the check of the block, and the fold
    over the remaining [pairs]. *)
Definition check_from (start_address : Z) (bb_curr bb_next : BasicBlock)
    (dinstr : DualInstruction) (reil_instrs : list ReilInstruction)
    (dinstrs : list DualInstruction) (pairs : list (BasicBlock * BasicBlock))
  : M TS Mem bool :=
  bind (reil_loop translator py_debug bb_curr bb_next dinstr reil_instrs) (fun _ =>
  bind (dinstr_loop translator py_debug bb_curr bb_next start_address dinstrs true)
       (fun found =>
  bind (solver_check solver_verdict) (fun verdict =>
    let sat' := String.eqb verdict "sat" in
    if negb sat' then ret sat'
    else block_loop translator solver_verdict py_debug start_address pairs found sat'))).

(** The check of [path_before ++ bb_curr :: bb_next :: ...] from [w] reaches,
    in the world [w2], the IR instruction that follows [reil_before] in
    [dinstr], the native instruction that follows [before] in [bb_curr]:
    every block of [path_before] passed its check; the native instructions
    [before] were gone through; [dinstr] is entered, the start instruction
    being found by then or being [dinstr] itself; and the IR instructions
    [reil_before], none of them a conditional jump, were translated and
    asserted. *)
Definition reaches (path_before : list BasicBlock) (bb_curr bb_next : BasicBlock)
    (before : list DualInstruction) (dinstr : DualInstruction)
    (reil_before : list ReilInstruction) (start_address : Z)
    (w w2 : world TS Mem) : Prop :=
  exists w0 found w1,
    ((path_before = [] /\ w0 = w) \/
     check_path_satisfiability translator solver_verdict py_debug
       (path_before ++ [bb_curr]) start_address w = (Ret true, w0)) /\
    dinstr_loop translator py_debug bb_curr bb_next start_address before
      (start_found start_address path_before) w0 = (Ret found, w1) /\
    (found = true \/ address dinstr = start_address) /\
    Forall (fun i => is_JCC (mnemonic i) = false) reil_before /\
    for_each reil_before (add_instruction translator) w1 = (Ret tt, w2).

End PathCheck.

End PathCheck.
Import PathCheck.

(** ** Concrete paths through a conditional branch *)


(** The session after the two additions that come before the conditional
    jump of [block_a] and of [block_call], from [demo_world]. *)
Definition demo_world_at_jcc : world nat string := Eval vm_compute in
    snd (for_each [add_instr 4096; add_instr 4608] (add_instruction demo_translator)
           demo_world).

(** The session after the check of [block_c] as the first block of a path
    entered at 0x30 and followed by [block_a], and after the two additions of
    [block_a] that come before its conditional jump. *)
Definition demo_world_after_c : world nat string := Eval vm_compute in
    snd (check_path_satisfiability demo_translator always_sat true
           [block_c; block_a (Some 32) (Some 32) None] 48 demo_world).

Definition demo_world_at_later_jcc : world nat string := Eval vm_compute in
    snd (for_each [add_instr 4096; add_instr 4608] (add_instruction demo_translator)
           demo_world_after_c).

(** ** Properties *)

Section Properties.

Context {TS Mem : Type}.
Variable translator : Translator.t TS Mem.
Variable arch_info : ArchitectureInformation.
Variable solver_verdict : list (event Mem) -> string.
Variable py_debug : bool.

Local Abbreviation reil_loop := (reil_loop translator py_debug).
Local Abbreviation dinstr_loop := (dinstr_loop translator py_debug).
Local Abbreviation block_loop := (block_loop translator solver_verdict py_debug).
Local Abbreviation check_path_satisfiability :=
  (check_path_satisfiability translator solver_verdict py_debug).
Local Abbreviation get_register_expr := (get_register_expr translator arch_info).
Local Abbreviation get_operand_expr := (get_operand_expr translator arch_info).
Local Abbreviation get_memory_expr := (get_memory_expr translator).
Local Abbreviation _get_var_name := (_get_var_name translator).
Local Abbreviation set_context := (set_context translator).
Local Abbreviation processed_blocks := (processed_blocks translator py_debug).

Local Abbreviation mode_name := (mode_name translator).

Lemma emit_emit_all ev (w : world TS Mem) : emit ev w = emit_all [ev] w.
Proof. reflexivity. Qed.

Lemma var_name_valid r mode w :
  mode = "pre" \/ mode = "post" ->
  _get_var_name r mode w = (Ret (mode_name (tstate w) mode r), w).
Proof.
  intros [-> | ->]; reflexivity.
Qed.

Lemma var_name_invalid r mode w :
  mode <> "pre" -> mode <> "post" ->
  _get_var_name r mode w = (Raise InvalidMode, w).
Proof.
  intros Hpre Hpost. unfold CodeAnalyzer._get_var_name, bind, get_tstate. simpl.
  destruct (String.eqb_spec mode "pre"); [contradiction |].
  destruct (String.eqb_spec mode "post"); [contradiction |].
  reflexivity.
Qed.

(** *** Conditional branches inside [reil_loop] *)

Lemma reil_loop_jcc_positioned bb_curr bb_next dinstr i rest :
  is_JCC (mnemonic i) = true ->
  address dinstr + asm_size (asm_instr dinstr) - 1 = end_address bb_curr ->
  reil_loop bb_curr bb_next dinstr (i :: rest) =
    if py_debug &&
       negb (branch_is (taken_branch bb_curr) (bb_address bb_next) ||
             branch_is (not_taken_branch bb_curr) (bb_address bb_next) ||
             branch_is (direct_branch bb_curr) (bb_address bb_next))
    then raise AssertionError
    else if branch_is (taken_branch bb_curr) (bb_address bb_next) then
      match operands i with
      | [] => raise IndexError
      | operand :: _ =>
          bind (get_operand_var translator operand) (fun v => add_constraint (Eq v 1))
      end
    else if branch_is (not_taken_branch bb_curr) (bb_address bb_next) then
      match operands i with
      | [] => raise IndexError
      | operand :: _ =>
          bind (get_operand_var translator operand) (fun v => add_constraint (Eq v 0))
      end
    else reil_loop bb_curr bb_next dinstr rest.
Proof.
  intros Hj Hp. simpl. rewrite Hj, Hp, Z.eqb_refl. reflexivity.
Qed.

Lemma dinstr_loop_found bb_curr bb_next start dinstr rest w :
  dinstr_loop bb_curr bb_next start (dinstr :: rest) true w =
    bind (reil_loop bb_curr bb_next dinstr (ir_instrs dinstr))
         (fun _ => dinstr_loop bb_curr bb_next start rest true) w.
Proof. reflexivity. Qed.

Lemma dinstr_loop_at_start bb_curr bb_next start dinstr rest found w :
  address dinstr = start ->
  dinstr_loop bb_curr bb_next start (dinstr :: rest) found w =
    bind (reil_loop bb_curr bb_next dinstr (ir_instrs dinstr))
         (fun _ => dinstr_loop bb_curr bb_next start rest true) w.
Proof.
  intros <-. simpl. rewrite Z.eqb_refl, andb_false_r. reflexivity.
Qed.

Lemma consecutive_pairs_cons (a b : BasicBlock) (l : list BasicBlock) :
  combine (removelast (a :: b :: l)) (tl (a :: b :: l)) =
    (a, b) :: combine (removelast (b :: l)) (tl (b :: l)).
Proof. reflexivity. Qed.

Lemma consecutive_pairs_length (path : list BasicBlock) :
  length (combine (removelast path) (tl path)) = (length path - 1)%nat.
Proof.
  destruct path as [| a l]; [reflexivity |].
  revert a. induction l as [| b l IH]; intros a; [reflexivity |].
  rewrite consecutive_pairs_cons. cbn [length]. rewrite IH. cbn [length]. lia.
Qed.


(** C10: on a path of fewer than two blocks there is no pair of consecutive
    blocks: the check returns [False] and leaves the world as it was, so no
    instruction is translated, no assertion is added and the solver is not
    asked. *)
Theorem C10_short_path_is_noop :
  forall (path : list BasicBlock) start (w : world TS Mem),
    (length path < 2)%nat ->
    check_path_satisfiability path start w = (Ret false, w).
Proof.
  intros path start w Hlen.
  destruct path as [| a [| b l]]; [reflexivity | reflexivity |].
  simpl in Hlen. lia.
Qed.

(** *** Expression resolution *)

Lemma testbit_extract (v offset size k : Z) :
  0 <= offset -> 0 <= size -> 0 <= k ->
  Z.testbit ((v / 2 ^ offset) mod 2 ^ size) k =
    if Z.ltb k size then Z.testbit v (offset + k) else false.
Proof.
  intros Ho Hs Hk. destruct (Z.ltb_spec k size) as [Hlt | Hge].
  - rewrite Z.mod_pow2_bits_low by lia.
    rewrite Z.div_pow2_bits by lia. f_equal. lia.
  - apply Z.mod_pow2_bits_high. lia.
Qed.

(** C7: for a name in [alias_mapper], [get_register_expr] builds the base
    register's bit-vector, named for the mode and as wide as the base
    register, and extracts from it the bits from [offset] up to
    [offset + width of the name]; for a name that is no alias it builds the
    bit-vector named for the mode and as wide as [registers_size] says. *)
Theorem C7_register_expr :
  forall name mode (w : world TS Mem),
    mode = "pre" \/ mode = "post" ->
    (forall base offset base_width width,
       alias_mapper arch_info !! name = Some (base, offset) ->
       registers_size arch_info !! base = Some base_width ->
       registers_size arch_info !! name = Some width ->
       let base_var := BitVec base_width (mode_name (tstate w) mode base) in
       get_register_expr name mode w = (Ret (Extract base_var offset width), w) /\
       forall rho mu k,
         0 <= offset -> 0 <= width -> 0 <= k ->
         Z.testbit (eval rho mu (Extract base_var offset width)) k =
           if Z.ltb k width then Z.testbit (eval rho mu base_var) (offset + k)
           else false) /\
    (forall width,
       alias_mapper arch_info !! name = None ->
       registers_size arch_info !! name = Some width ->
       get_register_expr name mode w =
         (Ret (BitVec width (mode_name (tstate w) mode name)), w)).
Proof.
  intros name mode w Hmode. split.
  - intros base offset wb wn Ha Hb Hn base_var. split.
    + unfold CodeAnalyzer.get_register_expr. rewrite Ha.
      unfold bind at 1. rewrite (var_name_valid _ _ _ Hmode).
      unfold bind, subscript. rewrite Hb, Hn. reflexivity.
    + intros rho mu k Ho Hw Hk. subst base_var. cbn [eval].
      apply testbit_extract; assumption.
  - intros wn Ha Hn.
    unfold CodeAnalyzer.get_register_expr. rewrite Ha.
    unfold bind at 1. rewrite (var_name_valid _ _ _ Hmode).
    unfold bind, subscript. rewrite Hn. reflexivity.
Qed.

Lemma concat_value_rev (vs : list Z) :
  concat_value 8 (rev vs) = little_endian vs.
Proof.
  induction vs as [| v vs IH]; [reflexivity |].
  cbn [rev little_endian]. unfold concat_value in *.
  rewrite fold_left_app. cbn [fold_left]. rewrite IH. lia.
Qed.

(** C8: [get_memory_expr] reads [size] single bytes at [address],
    [address + 1], ... from the initial memory array in mode "pre" and from
    the current one in mode "post", and concatenates them in reverse, so that
    the byte at the lowest address is the least significant one; any other
    mode raises the invalid-mode exception before anything is read. *)
Theorem C8_memory_expr_little_endian :
  forall address size (w : world TS Mem),
    let reads := fun m => map (fun index => Select m (address + index)) (seqZ 0 size) in
    get_memory_expr address size "pre" w =
      (Ret (Concat 8 (rev (reads (Translator.get_memory_init translator (tstate w))))), w) /\
    get_memory_expr address size "post" w =
      (Ret (Concat 8 (rev (reads (Translator.get_memory translator (tstate w))))), w) /\
    (forall mode, mode <> "pre" -> mode <> "post" ->
       get_memory_expr address size mode w = (Raise InvalidMode, w)) /\
    (forall m, length (reads m) = Z.to_nat size) /\
    (forall rho mu m,
       eval rho mu (Concat 8 (rev (reads m))) =
         little_endian (map (fun index => mu m (address + index) mod 2 ^ 8) (seqZ 0 size))).
Proof.
  intros address size w reads. repeat split.
  - intros mode Hpre Hpost.
    unfold CodeAnalyzer.get_memory_expr, get_memory, bind, get_tstate.
    destruct (String.eqb_spec mode "pre"); [contradiction |].
    destruct (String.eqb_spec mode "post"); [contradiction |].
    reflexivity.
  - intros m. unfold reads. rewrite length_map. apply length_seqZ.
  - intros rho mu m. cbn [eval]. rewrite map_rev, concat_value_rev.
    unfold reads. rewrite map_map. reflexivity.
Qed.

(** C9: [get_operand_expr] sends a register operand whose name is an
    architectural register to [get_register_expr]; for any other register
    operand it builds the bit-vector named for the mode at the operand's
    size; for an immediate operand it returns the constant of the operand's
    size and value; for any other operand it raises the invalid-operand
    exception. *)
Theorem C9_operand_expr_by_kind :
  forall mode (w : world TS Mem),
    (forall name size,
       name ∈ registers_all arch_info ->
       get_operand_expr (ReilRegisterOperand name size) mode w =
         get_register_expr name mode w) /\
    (forall name size,
       name ∉ registers_all arch_info ->
       (mode = "pre" \/ mode = "post" ->
          get_operand_expr (ReilRegisterOperand name size) mode w =
            (Ret (BitVec size (mode_name (tstate w) mode name)), w)) /\
       (mode <> "pre" -> mode <> "post" ->
          get_operand_expr (ReilRegisterOperand name size) mode w =
            (Raise InvalidMode, w))) /\
    (forall immediate size,
       get_operand_expr (ReilImmediateOperand immediate size) mode w =
         (Ret (Constant size immediate), w)) /\
    get_operand_expr ReilEmptyOperand mode w = (Raise InvalidOperand, w).
Proof.
  intros mode w. repeat split.
  - intros name size Hin. unfold CodeAnalyzer.get_operand_expr.
    rewrite bool_decide_eq_true_2 by exact Hin. reflexivity.
  - intros Hmode. unfold CodeAnalyzer.get_operand_expr.
    rewrite bool_decide_eq_false_2 by assumption.
    unfold bind. rewrite (var_name_valid _ _ _ Hmode). reflexivity.
  - intros Hpre Hpost. unfold CodeAnalyzer.get_operand_expr.
    rewrite bool_decide_eq_false_2 by assumption.
    unfold bind. rewrite (var_name_invalid _ _ _ Hpre Hpost). reflexivity.
Qed.

(** *** Context lowering *)

Lemma emit_all_app evs1 evs2 (w : world TS Mem) :
  emit_all evs2 (emit_all evs1 w) = emit_all (evs1 ++ evs2) w.
Proof. unfold emit_all. simpl. rewrite <- app_assoc. reflexivity. Qed.

Lemma emit_all_nil (w : world TS Mem) : emit_all [] w = w.
Proof. destruct w. unfold emit_all. simpl. rewrite app_nil_r. reflexivity. Qed.

(** A loop whose body adds one assertion per element adds them in order. *)
Lemma for_each_adds {A} (g : TS -> A -> Expr Mem) (body : A -> M TS Mem unit) :
  (forall x w, body x w = (Ret tt, emit (EvAdd (g (tstate w) x)) w)) ->
  forall l w,
    for_each l body w = (Ret tt, emit_all ((fun x => EvAdd (g (tstate w) x)) <$> l) w).
Proof.
  intros Hbody l. induction l as [| x l IH]; intros w.
  - simpl. rewrite emit_all_nil. reflexivity.
  - cbn [for_each]. unfold bind. rewrite Hbody, IH, emit_emit_all, emit_all_app.
    reflexivity.
Qed.

Lemma for_each_solver_add (es : list (Expr Mem)) (w : world TS Mem) :
  for_each es solver_add w = (Ret tt, emit_all (EvAdd <$> es) w).
Proof.
  apply (for_each_adds (fun _ e => e)). reflexivity.
Qed.

(** C6: [set_context] stores the context and extends the solver's session,
    without resetting it, by exactly one assertion per entry: for a register,
    its initial name at its own width equals its value; for a flag, its
    initial name at width 32 equals its value; for a memory address, the
    memory array at that address equals its value.  Nothing else is
    asserted. *)
Theorem C6_set_context_one_assertion_per_entry :
  forall ctx (w : world TS Mem),
    let init_name := Translator.get_init_name translator (tstate w) in
    let mem := Translator.get_memory translator (tstate w) in
    exists added : list (Expr Mem),
      set_context ctx w =
        (Ret tt, {| tstate := tstate w;
                    trace := trace w ++ (EvAdd <$> added);
                    context := Some ctx |}) /\
      length added =
        (size (registers ctx) + size (flags ctx) + size (memory ctx))%nat /\
      (forall k r, registers ctx !! k = Some r ->
         Eq (BitVec (reg_size r) (init_name (reg_name r))) (reg_value r) ∈ added) /\
      (forall k f, flags ctx !! k = Some f ->
         Eq (BitVec 32 (init_name (flag_name f))) (flag_value f) ∈ added) /\
      (forall a v, memory ctx !! a = Some v ->
         Eq (Select mem a) v ∈ added) /\
      (forall e, e ∈ added ->
         (exists k r, registers ctx !! k = Some r /\
            e = Eq (BitVec (reg_size r) (init_name (reg_name r))) (reg_value r)) \/
         (exists k f, flags ctx !! k = Some f /\
            e = Eq (BitVec 32 (init_name (flag_name f))) (flag_value f)) \/
         (exists a v, memory ctx !! a = Some v /\ e = Eq (Select mem a) v)).
Proof.
  intros ctx w init_name mem.
  set (of_reg := fun kv : string * GenericRegister =>
         Eq (Mem := Mem) (BitVec (reg_size kv.2) (init_name (reg_name kv.2))) (reg_value kv.2)).
  set (of_flag := fun kv : string * GenericFlag =>
         Eq (Mem := Mem) (BitVec 32 (init_name (flag_name kv.2))) (flag_value kv.2)).
  set (of_mem := fun kv : Z * Z => Eq (Select mem kv.1) kv.2).
  exists ((of_reg <$> map_to_list (registers ctx)) ++
          (of_flag <$> map_to_list (flags ctx)) ++
          (of_mem <$> map_to_list (memory ctx))).
  split; [| split; [| split; [| split; [| split]]]].
  - unfold CodeAnalyzer.set_context.
    unfold bind at 1. unfold store_context.
    unfold bind at 1.
    rewrite (for_each_adds (fun ts (kv : string * GenericRegister) =>
               Eq (BitVec (reg_size kv.2)
                     (Translator.get_init_name translator ts (reg_name kv.2)))
                  (reg_value kv.2))) by reflexivity.
    unfold emit_all at 1. cbn [tstate trace context].
    unfold bind at 1.
    rewrite (for_each_adds (fun ts (kv : string * GenericFlag) =>
               Eq (BitVec 32 (Translator.get_init_name translator ts (flag_name kv.2)))
                  (flag_value kv.2))) by reflexivity.
    unfold emit_all at 1. cbn [tstate trace context].
    unfold bind at 1. unfold get_tstate at 1. cbn [tstate].
    rewrite (for_each_adds (fun _ (kv : Z * Z) => Eq (Select mem kv.1) kv.2))
      by reflexivity.
    unfold emit_all. cbn [tstate trace context].
    rewrite !fmap_app, <- !list_fmap_compose, <- !app_assoc. reflexivity.
  - rewrite !length_app, !length_fmap, !length_map_to_list. lia.
  - intros k r Hk. apply elem_of_app. left.
    apply (list_elem_of_fmap_2' of_reg _ (k, r)); [| reflexivity].
    apply elem_of_map_to_list. exact Hk.
  - intros k f Hk. apply elem_of_app. right. apply elem_of_app. left.
    apply (list_elem_of_fmap_2' of_flag _ (k, f)); [| reflexivity].
    apply elem_of_map_to_list. exact Hk.
  - intros a v Ha. apply elem_of_app. right. apply elem_of_app. right.
    apply (list_elem_of_fmap_2' of_mem _ (a, v)); [| reflexivity].
    apply elem_of_map_to_list. exact Ha.
  - intros e He.
    apply elem_of_app in He as [He | He]; [| apply elem_of_app in He as [He | He]];
      apply list_elem_of_fmap in He as [[k x] [-> Hin]];
      apply elem_of_map_to_list in Hin.
    + left. exists k, x. split; [exact Hin | reflexivity].
    + right. left. exists k, x. split; [exact Hin | reflexivity].
    + right. right. exists k, x. split; [exact Hin | reflexivity].
Qed.

(** *** What the loops add to the trace *)

Lemma no_check_fmap_add (es : list (Expr Mem)) : no_check (EvAdd <$> es).
Proof. induction es; constructor; [reflexivity | assumption]. Qed.

Lemma reil_loop_extends bb_curr bb_next dinstr is_ :
  forall (w : world TS Mem) r w',
    reil_loop bb_curr bb_next dinstr is_ w = (r, w') ->
    exists evs, trace w' = trace w ++ evs /\ no_check evs.
Proof.
  induction is_ as [| i rest IH]; intros w r w' Hrun.
  - inversion Hrun; subst. exists []. rewrite app_nil_r. split; [reflexivity | constructor].
  - cbn [CodeAnalyzer.reil_loop] in Hrun.
    destruct (is_JCC (mnemonic i)).
    + destruct (negb _).
      * unfold bind at 1 in Hrun. unfold log_error in Hrun.
        apply IH in Hrun as (evs & Ht & Hn). cbn [emit trace] in Ht.
        exists (EvLogError dinstr i :: evs). split.
        -- rewrite Ht, <- app_assoc. reflexivity.
        -- constructor; [reflexivity | exact Hn].
      * assert (Hstop : forall goal,
                  match operands i with
                  | [] => raise IndexError
                  | operand :: _ =>
                      bind (get_operand_var translator operand)
                           (fun v => add_constraint (Eq v goal))
                  end w = (r, w') ->
                  exists evs, trace w' = trace w ++ evs /\ no_check evs).
        { intros goal Hg. destruct (operands i) as [| o os].
          - inversion Hg; subst. exists []. rewrite app_nil_r.
            split; [reflexivity | constructor].
          - unfold bind, get_operand_var in Hg.
            destruct (Translator._translate_src_oprnd translator o (tstate w))
              as [[v | e] ts]; inversion Hg; subst; cbn [emit trace].
            + exists [EvAdd (Eq v goal)]. split; [reflexivity |].
              constructor; [reflexivity | constructor].
            + exists []. rewrite app_nil_r. split; [reflexivity | constructor]. }
        destruct (py_debug && _).
        { inversion Hrun; subst. exists []. rewrite app_nil_r.
          split; [reflexivity | constructor]. }
        destruct (branch_is (taken_branch bb_curr) _); [eapply Hstop; eassumption |].
        destruct (branch_is (not_taken_branch bb_curr) _); [eapply Hstop; eassumption |].
        eapply IH; eassumption.
    + unfold bind at 1 in Hrun. unfold translator_translate in Hrun.
      destruct (Translator.translate translator i (tstate w)) as [[es | e] ts].
      * unfold bind at 1 in Hrun. rewrite for_each_solver_add in Hrun.
        apply IH in Hrun as (evs & Ht & Hn). cbn [emit_all trace] in Ht.
        exists ((EvTranslate i :: (EvAdd <$> es)) ++ evs). split.
        -- rewrite Ht, <- !app_assoc. reflexivity.
        -- apply Forall_app. split; [| exact Hn].
           constructor; [reflexivity | apply no_check_fmap_add].
      * inversion Hrun; subst. cbn [trace]. exists [EvTranslate i].
        split; [reflexivity |]. constructor; [reflexivity | constructor].
Qed.

Lemma dinstr_loop_extends bb_curr bb_next start ds :
  forall found (w : world TS Mem) r w',
    dinstr_loop bb_curr bb_next start ds found w = (r, w') ->
    exists evs, trace w' = trace w ++ evs /\ no_check evs.
Proof.
  induction ds as [| d rest IH]; intros found w r w' Hrun.
  - inversion Hrun; subst. exists []. rewrite app_nil_r. split; [reflexivity | constructor].
  - cbn [CodeAnalyzer.dinstr_loop] in Hrun.
    destruct (negb found && negb (address d =? start)); [eapply IH; eassumption |].
    unfold bind in Hrun.
    destruct (reil_loop bb_curr bb_next d (ir_instrs d) w) as [[[] | e] w1] eqn:Hd;
      apply reil_loop_extends in Hd as (evs1 & Ht1 & Hn1).
    + apply IH in Hrun as (evs2 & Ht2 & Hn2).
      exists (evs1 ++ evs2). split.
      * rewrite Ht2, Ht1, <- app_assoc. reflexivity.
      * apply Forall_app. split; assumption.
    + inversion Hrun; subst. exists evs1. split; assumption.
Qed.

(** *** The fold over consecutive blocks *)

Lemma split_at_first_check (evs tail before after : list (event Mem)) :
  no_check evs ->
  evs ++ EvCheck :: tail = before ++ EvCheck :: after ->
  (before = evs /\ after = tail) \/
  (exists p, before = evs ++ EvCheck :: p /\ tail = p ++ EvCheck :: after).
Proof.
  intros Hn. revert before. induction Hn as [| e evs He Hn IH]; intros before Heq.
  - destruct before as [| x p]; simpl in Heq; inversion Heq; subst.
    + left. split; reflexivity.
    + right. exists p. split; reflexivity.
  - destruct before as [| x p]; simpl in Heq; inversion Heq; subst.
    + discriminate He.
    + destruct (IH p) as [[-> ->] | (q & -> & ->)]; [assumption | |].
      * left. split; reflexivity.
      * right. exists q. split; reflexivity.
Qed.

Lemma block_loop_run start pairs :
  forall found sat (w : world TS Mem) b w',
    block_loop start pairs found sat w = (Ret b, w') ->
    exists segments : list (list (event Mem)),
      trace w' = trace w ++ concat ((fun evs => evs ++ [EvCheck]) <$> segments) /\
      processed_blocks start pairs found w segments /\
      (length segments <= length pairs)%nat /\
      (b = true -> length segments = length pairs) /\
      match pairs with
      | [] => b = sat /\ segments = []
      | _ :: _ =>
          segments <> [] /\
          exists before,
            trace w' = before ++ [EvCheck] /\
            b = String.eqb (solver_verdict before) "sat"
      end /\
      (forall before after,
         trace w' = (trace w ++ before) ++ EvCheck :: after ->
         after <> [] ->
         solver_verdict (trace w ++ before) = "sat").
Proof.
  induction pairs as [| [c n] rest IH]; intros found sat w b w' Hrun.
  - inversion Hrun; subst. exists []. cbn. rewrite app_nil_r.
    repeat split; try reflexivity; try lia.
    intros before after Heq _. rewrite <- app_assoc in Heq.
    rewrite <- (app_nil_r (trace w')) in Heq at 1.
    apply app_inv_head in Heq. destruct before; discriminate Heq.
  - cbn [CodeAnalyzer.block_loop] in Hrun. unfold bind at 1 in Hrun.
    destruct (dinstr_loop c n start (instrs c) found w) as [[f | e] w1] eqn:Hd;
      [| discriminate Hrun].
    destruct (dinstr_loop_extends _ _ _ _ _ _ _ _ Hd) as (evs1 & Ht1 & Hn1).
    unfold bind at 1 in Hrun. unfold solver_check at 1 in Hrun.
    destruct (String.eqb (solver_verdict (trace w1)) "sat") eqn:Hv; cbn [negb] in Hrun.
    + apply IH in Hrun as (segs & Htr & Hpb & Hlen & Hfull & Hlast & Hearly).
      cbn [emit trace] in Htr.
      exists (evs1 :: segs). split; [| split; [| split; [| split; [| split]]]].
      * rewrite Htr, Ht1. cbn [fmap list_fmap concat].
        rewrite <- !app_assoc. reflexivity.
      * cbn [CodeAnalyzer.processed_blocks]. exists f, w1. repeat split; assumption.
      * cbn [length]. lia.
      * intros Hb. cbn [length]. rewrite (Hfull Hb). reflexivity.
      * split; [discriminate |].
        destruct rest as [| p rest'].
        -- destruct Hlast as [-> ->]. exists (trace w1). split.
           ++ rewrite Htr. cbn. rewrite app_nil_r. reflexivity.
           ++ symmetry. exact Hv.
        -- destruct Hlast as [_ Hlast]. exact Hlast.
      * intros before after Heq Hafter.
        rewrite Htr, Ht1 in Heq. rewrite <- !app_assoc in Heq.
        apply app_inv_head in Heq. cbn [app] in Heq.
        destruct (split_at_first_check _ _ _ _ Hn1 Heq) as [[-> _] | (p & -> & Hp)].
        -- rewrite <- Ht1. apply String.eqb_eq. exact Hv.
        -- replace (trace w ++ evs1 ++ EvCheck :: p)
             with (trace (emit EvCheck w1) ++ p)
             by (cbn [emit trace]; rewrite Ht1, <- !app_assoc; reflexivity).
           apply (Hearly p after); [| exact Hafter].
           rewrite Htr. cbn [emit trace]. rewrite Hp, <- !app_assoc. reflexivity.
    + inversion Hrun; subst. cbn [emit trace].
      exists [evs1]. split; [| split; [| split; [| split; [| split]]]].
      * rewrite Ht1. cbn. rewrite app_nil_r, <- app_assoc. reflexivity.
      * cbn [CodeAnalyzer.processed_blocks]. exists f, w1.
        repeat split; [exact Hd | exact Ht1 | exact Hn1].
      * cbn [length]. lia.
      * discriminate.
      * split; [discriminate |]. exists (trace w1). split; [reflexivity |].
        symmetry. exact Hv.
      * intros before after Heq Hafter.
        rewrite Ht1 in Heq. rewrite <- !app_assoc in Heq.
        apply app_inv_head in Heq. cbn [app] in Heq.
        destruct (split_at_first_check _ _ _ _ Hn1 Heq) as [[_ ->] | (p & _ & Hp)].
        -- contradiction.
        -- destruct p; discriminate Hp.
Qed.

(** C3: a check that returns over a path of at least two blocks has issued
    exactly one [solver.check()] after the instructions of each block it
    processed, and nothing else in between; it processed every block but the
    last of the path when it returns [True]; a check whose verdict is not
    "sat" is the last thing the analyzer does, so no later block is
    translated; and the value returned is the verdict of the last check. *)
Theorem C3_one_check_per_block :
  forall path start (w : world TS Mem) b w',
    (2 <= length path)%nat ->
    check_path_satisfiability path start w = (Ret b, w') ->
    exists segments : list (list (event Mem)),
      trace w' = trace w ++ concat ((fun evs => evs ++ [EvCheck]) <$> segments) /\
      processed_blocks start (combine (removelast path) (tl path)) false w segments /\
      (1 <= length segments <= length path - 1)%nat /\
      (b = true -> length segments = (length path - 1)%nat) /\
      (exists before,
         trace w' = before ++ [EvCheck] /\
         b = String.eqb (solver_verdict before) "sat") /\
      (forall before after,
         trace w' = (trace w ++ before) ++ EvCheck :: after ->
         after <> [] ->
         solver_verdict (trace w ++ before) = "sat").
Proof.
  intros path start w b w' Hlen Hrun.
  unfold CodeAnalyzer.check_path_satisfiability in Hrun.
  apply block_loop_run in Hrun as (segs & Htr & Hpb & Hle & Hfull & Hlast & Hearly).
  rewrite consecutive_pairs_length in Hle, Hfull.
  destruct path as [| a [| a' l]]; [simpl in Hlen; lia | simpl in Hlen; lia |].
  rewrite consecutive_pairs_cons in Hlast. destruct Hlast as [Hne Hlast].
  exists segs. repeat split; try assumption.
  destruct segs; [contradiction | cbn [length]; lia].
Qed.

End Properties.

(** ** The analyzer on concrete inputs *)

Example demo_path_is_satisfiable :
  check_path_satisfiability demo_translator always_sat true demo_path 16 demo_world =
    (Ret true, demo_final).
Proof. vm_compute. reflexivity. Qed.

Example demo_path_asserts_taken_goal :
  asserted (trace demo_final) =
    [Eq (BitVec 32 "t0") 4096; Eq (BitVec 32 "t0") 4608; Eq (BitVec 1 "t1") 1;
     Eq (BitVec 32 "t0") 8192; Eq (BitVec 32 "t0") 8704].
Proof. vm_compute. reflexivity. Qed.

Example demo_low_byte_alias :
  forall rho mu,
    rho "eax_0" = 255 ->
    eval rho mu (Extract (BitVec (Mem := string) 32 "eax_0") 0 8) = 255.
Proof. intros rho mu H. cbn [eval]. rewrite H. reflexivity. Qed.

Lemma C1_counterexample :
  branch_is (taken_branch (block_j None None None)) (bb_address block_b) = false /\
  branch_is (not_taken_branch (block_j None None None)) (bb_address block_b) = false /\
  branch_is (direct_branch (block_j None None None)) (bb_address block_b) = false /\
  reil_loop demo_translator true (block_j None None None) block_b
      (dual 16 2 [jcc_instr 4096; add_instr 4097])
      [jcc_instr 4096; add_instr 4097] demo_world <>
    reil_loop demo_translator true (block_j None None None) block_b
      (dual 16 2 [jcc_instr 4096; add_instr 4097])
      [add_instr 4097] demo_world /\
  check_path_satisfiability demo_translator always_sat true
      [block_j None None None; block_b] 16 demo_world =
    (Raise AssertionError, demo_world).
Proof.
  repeat split; try reflexivity.
  vm_compute. discriminate.
Qed.

Lemma C10_witness :
  (length [block_b] < 2)%nat /\
  check_path_satisfiability demo_translator always_sat true [block_b] 32 demo_world =
    (Ret false, demo_world).
Proof.
  split; [simpl; lia |].
  apply (C10_short_path_is_noop demo_translator always_sat true). simpl. lia.
Defined.

Lemma C3_witness :
  (2 <= length demo_path)%nat /\
  check_path_satisfiability demo_translator always_sat true demo_path 16 demo_world =
    (Ret true, demo_final) /\
  exists segments : list (list (event string)),
    trace demo_final =
      trace demo_world ++ concat ((fun evs => evs ++ [EvCheck]) <$> segments) /\
    length segments = 2%nat /\
    exists before,
      trace demo_final = before ++ [EvCheck] /\
      true = String.eqb (always_sat before) "sat".
Proof.
  split; [simpl; lia |]. split; [vm_compute; reflexivity |].
  destruct (C3_one_check_per_block demo_translator always_sat true
              demo_path 16 demo_world true demo_final)
    as (segments & Htrace & _ & _ & Hfull & Hlast & _).
  - simpl. lia.
  - vm_compute. reflexivity.
  - exists segments. split; [exact Htrace |]. split; [exact (Hfull eq_refl) |].
    exact Hlast.
Defined.


Lemma C7_witness :
  ("post" = "pre" \/ "post" = "post") /\
  alias_mapper demo_arch !! "ah" = Some ("eax", 8) /\
  registers_size demo_arch !! "eax" = Some 32 /\
  registers_size demo_arch !! "ah" = Some 8 /\
  get_register_expr demo_translator demo_arch "ah" "post" demo_world =
    (Ret (Extract (BitVec 32 "eax_0") 8 8), demo_world).
Proof.
  split; [right; reflexivity |].
  split; [vm_compute; reflexivity |].
  split; [vm_compute; reflexivity |].
  split; [vm_compute; reflexivity |].
  destruct (C7_register_expr demo_translator demo_arch "ah" "post" demo_world
              (or_intror eq_refl)) as [Halias _].
  destruct (Halias "eax" 8 32 8) as [Hexpr _];
    [vm_compute; reflexivity | vm_compute; reflexivity | vm_compute; reflexivity |].
  exact Hexpr.
Defined.

Lemma C8_witness :
  get_memory_expr demo_translator 100 4 "post" demo_world =
    (Ret (Concat 8 [Select "MEM_0" 103; Select "MEM_0" 102;
                    Select "MEM_0" 101; Select "MEM_0" 100]), demo_world) /\
  "both" <> "pre" /\ "both" <> "post" /\
  get_memory_expr demo_translator 100 4 "both" demo_world =
    (Raise InvalidMode, demo_world).
Proof.
  destruct (C8_memory_expr_little_endian demo_translator 100 4 demo_world)
    as (_ & Hpost & Hother & _).
  split; [exact Hpost |].
  split; [discriminate |]. split; [discriminate |].
  apply Hother; discriminate.
Defined.

Lemma C9_witness :
  ("t0" ∉ registers_all demo_arch) /\
  get_operand_expr demo_translator demo_arch (ReilRegisterOperand "t0" 32) "pre"
      demo_world =
    (Ret (BitVec 32 "t0_0"), demo_world) /\
  ("ax" ∈ registers_all demo_arch) /\
  get_operand_expr demo_translator demo_arch (ReilRegisterOperand "ax" 16) "pre"
      demo_world =
    get_register_expr demo_translator demo_arch "ax" "pre" demo_world.
Proof.
  assert (Htemp : "t0" ∉ registers_all demo_arch)
    by (apply (bool_decide_unpack _); vm_compute; reflexivity).
  assert (Harch : "ax" ∈ registers_all demo_arch)
    by (apply (bool_decide_unpack _); vm_compute; reflexivity).
  destruct (C9_operand_expr_by_kind demo_translator demo_arch "pre" demo_world)
    as (Hreg & Htmp & _).
  split; [exact Htemp |].
  split; [exact (proj1 (Htmp "t0" 32 Htemp) (or_introl eq_refl)) |].
  split; [exact Harch |].
  exact (Hreg "ax" 16 Harch).
Defined.

Lemma C6_witness :
  exists added : list (Expr string),
    set_context demo_translator demo_context demo_world =
      (Ret tt, {| tstate := 0%nat;
                  trace := EvAdd <$> added;
                  context := Some demo_context |}) /\
    length added = 3%nat /\
    Eq (BitVec 32 "eax_0") 5 ∈ added /\
    Eq (BitVec 32 "zf_0") 1 ∈ added /\
    Eq (Select "MEM_0" 4096) 255 ∈ added.
Proof.
  destruct (C6_set_context_one_assertion_per_entry demo_translator
              demo_context demo_world)
    as (added & Hrun & Hlen & Hregs & Hflags & Hmem & _).
  exists added.
  split; [exact Hrun |].
  split; [rewrite Hlen; vm_compute; reflexivity |].
  split; [| split].
  - apply (Hregs "eax" {| reg_name := "eax"; reg_size := 32; reg_value := 5 |}).
    vm_compute. reflexivity.
  - apply (Hflags "zf" {| flag_name := "zf"; flag_value := 1 |}).
    vm_compute. reflexivity.
  - apply (Hmem 4096 255). vm_compute. reflexivity.
Defined.

(** ** Further properties of the analyzer *)

Section SessionProperties.

Context {TS Mem : Type}.
Variable translator : Translator.t TS Mem.
Variable arch_info : ArchitectureInformation.
Variable translator_reset : TS -> TS.
Variable solver_verdict : list (event Mem) -> string.
Variable solver_declarations : list (event Mem) -> gmap string (Expr Mem).
Variable solver_get_value : list (event Mem) -> Expr Mem -> outcome Z.
Variable py_debug : bool.

Local Abbreviation reil_loop := (reil_loop translator py_debug).
Local Abbreviation dinstr_loop := (dinstr_loop translator py_debug).
Local Abbreviation block_loop := (block_loop translator solver_verdict py_debug).
Local Abbreviation check_path_satisfiability :=
  (check_path_satisfiability translator solver_verdict py_debug).
Local Abbreviation get_register_expr := (get_register_expr translator arch_info).
Local Abbreviation get_operand_expr := (get_operand_expr translator arch_info).
Local Abbreviation get_memory_expr := (get_memory_expr translator).
Local Abbreviation _get_var_name := (_get_var_name translator).
Local Abbreviation mode_name := (mode_name translator).
Local Abbreviation set_context := (set_context translator).
Local Abbreviation add_instruction := (add_instruction translator).
Local Abbreviation get_context_from :=
  (get_context_from translator solver_declarations solver_get_value).
Local Abbreviation get_context :=
  (get_context translator solver_declarations solver_get_value).
Local Abbreviation declaration := (declaration solver_declarations).
Local Abbreviation get_value := (get_value solver_get_value).
Local Abbreviation reset := (reset translator_reset).
Local Abbreviation context_assertions := (context_assertions translator).

(** *** Reading a model back *)

Lemma build_dict_sound `{Countable K} {A B} (body : K -> A -> M TS Mem B) :
  (forall k a w, snd (body k a w) = w) ->
  forall items d (w : world TS Mem) m w',
    NoDup items.*1 ->
    build_dict items body d w = (Ret m, w') ->
    w' = w /\
    (forall k a, (k, a) ∈ items ->
       exists b, body k a w = (Ret b, w) /\ m !! k = Some b) /\
    (forall k, k ∉ items.*1 -> m !! k = d !! k).
Proof.
  intros Hpure items. induction items as [| [k0 a0] rest IH]; intros d w m w' Hnd Hrun.
  - inversion Hrun; subst. split; [reflexivity |]. split; [| reflexivity].
    intros k a Hin. inversion Hin.
  - cbn [build_dict] in Hrun. unfold bind in Hrun.
    pose proof (Hpure k0 a0 w) as Hw.
    destruct (body k0 a0 w) as [[b0 | e] w0] eqn:Hb; [| discriminate Hrun].
    simpl in Hw. subst w0.
    apply NoDup_cons in Hnd as [Hk0 Hnd].
    destruct (IH _ _ _ _ Hnd Hrun) as (-> & Hin & Hout).
    split; [reflexivity |]. split.
    + intros k a Hka. apply elem_of_cons in Hka as [Heq | Hka].
      * inversion Heq; subst. exists b0. split; [exact Hb |].
        rewrite (Hout k0 Hk0). apply lookup_insert_eq.
      * apply Hin. exact Hka.
    + intros k Hk. cbn [fmap list_fmap fst] in Hk.
      apply not_elem_of_cons in Hk as [Hne Hk].
      rewrite (Hout k Hk). apply lookup_insert_ne. congruence.
Qed.

Lemma build_dict_pure `{Countable K} {A B} (body : K -> A -> M TS Mem B) :
  (forall k a w, snd (body k a w) = w) ->
  forall items d (w : world TS Mem), snd (build_dict items body d w) = w.
Proof.
  intros Hpure items. induction items as [| [k0 a0] rest IH]; intros d w.
  - reflexivity.
  - cbn [build_dict]. unfold bind. pose proof (Hpure k0 a0 w) as Hw.
    destruct (body k0 a0 w) as [[b0 | e] w0]; simpl in Hw; subst w0.
    + apply IH.
    + reflexivity.
Qed.

Lemma build_dict_complete `{Countable K} {A B} (body : K -> A -> M TS Mem B) :
  forall items d (w : world TS Mem),
    (forall k a, (k, a) ∈ items -> exists b, body k a w = (Ret b, w)) ->
    exists m, build_dict items body d w = (Ret m, w).
Proof.
  intros items. induction items as [| [k0 a0] rest IH]; intros d w Hall.
  - exists d. reflexivity.
  - destruct (Hall k0 a0) as [b0 Hb0]; [apply elem_of_cons; left; reflexivity |].
    destruct (IH (<[k0 := b0]> d) w) as [m Hm].
    { intros k a Hin. apply Hall. apply elem_of_cons. right. exact Hin. }
    exists m. cbn [build_dict]. unfold bind. rewrite Hb0. exact Hm.
Qed.

Lemma build_dict_of_map `{Countable K} {A B} (body : K -> A -> M TS Mem B)
    (src : gmap K A) (w : world TS Mem) m w' :
  (forall k a w, snd (body k a w) = w) ->
  build_dict (map_to_list src) body ∅ w = (Ret m, w') ->
  w' = w /\
  (forall k a, src !! k = Some a ->
     exists b, body k a w = (Ret b, w) /\ m !! k = Some b) /\
  (forall k, src !! k = None -> m !! k = None).
Proof.
  intros Hpure Hrun.
  destruct (build_dict_sound body Hpure _ _ _ _ _ (NoDup_fst_map_to_list src) Hrun)
    as (-> & Hin & Hout).
  split; [reflexivity |]. split.
  - intros k a Hk. apply Hin. apply elem_of_map_to_list. exact Hk.
  - intros k Hk. rewrite Hout; [apply lookup_empty |].
    intros Hmem. apply list_elem_of_fmap in Hmem as ([k' a] & -> & Hin').
    apply elem_of_map_to_list in Hin'. simpl in Hk. congruence.
Qed.

Lemma symbol_value_run {B} (name : string) (mk : Z -> B) (w : world TS Mem) :
  bind (declaration name) (fun symbol =>
    bind (get_value symbol) (fun value => ret (mk value))) w =
  match solver_declarations (trace w) !! name with
  | None => (Raise (KeyError name), w)
  | Some symbol =>
      match solver_get_value (trace w) symbol with
      | Ret value => (Ret (mk value), w)
      | Raise e => (Raise e, w)
      end
  end.
Proof.
  unfold bind, Session.declaration, subscript, Session.get_value.
  destruct (solver_declarations (trace w) !! name) as [symbol |]; [| reflexivity].
  simpl. destruct (solver_get_value (trace w) symbol); reflexivity.
Qed.

Lemma symbol_value_pure {B} (name : string) (mk : Z -> B) (w : world TS Mem) :
  snd (bind (declaration name) (fun symbol =>
         bind (get_value symbol) (fun value => ret (mk value))) w) = w.
Proof.
  rewrite symbol_value_run.
  destruct (solver_declarations (trace w) !! name); [| reflexivity].
  destruct (solver_get_value (trace w) _); reflexivity.
Qed.

Lemma get_context_from_pure ctx (w : world TS Mem) :
  snd (get_context_from ctx w) = w.
Proof.
  unfold Session.get_context_from.
  unfold bind at 1.
  match goal with
  | |- context [build_dict (map_to_list (registers ctx)) ?body ∅ w] =>
      pose proof (build_dict_pure body) as Hp;
      specialize (Hp (fun k a w0 => symbol_value_pure _ _ w0)
                     (map_to_list (registers ctx)) ∅ w);
      destruct (build_dict (map_to_list (registers ctx)) body ∅ w) as [[regs | e] w1]
  end; simpl in Hp; subst w1; [| reflexivity].
  unfold bind at 1.
  match goal with
  | |- context [build_dict (map_to_list (flags ctx)) ?body ∅ w] =>
      pose proof (build_dict_pure body) as Hp;
      specialize (Hp (fun k a w0 => symbol_value_pure _ _ w0)
                     (map_to_list (flags ctx)) ∅ w);
      destruct (build_dict (map_to_list (flags ctx)) body ∅ w) as [[flgs | e] w1]
  end; simpl in Hp; subst w1; [| reflexivity].
  unfold bind at 1, get_tstate at 1. unfold bind at 1.
  match goal with
  | |- context [build_dict (map_to_list (memory ctx)) ?body ∅ w] =>
      pose proof (build_dict_pure body) as Hp;
      specialize (Hp (fun k a w0 => eq_refl)
                     (map_to_list (memory ctx)) ∅ w);
      destruct (build_dict (map_to_list (memory ctx)) body ∅ w) as [[mems | e] w1]
  end; simpl in Hp; subst w1; reflexivity.
Qed.

Lemma get_context_from_sound :
  forall ctx (w : world TS Mem) ctx' w',
    get_context_from ctx w = (Ret ctx', w') ->
    let curr := Translator.get_curr_name translator (tstate w) in
    let decl := solver_declarations (trace w) in
    let value := solver_get_value (trace w) in
    w' = w /\
    (forall k r, registers ctx !! k = Some r ->
       exists symbol v,
         decl !! curr k = Some symbol /\ value symbol = Ret v /\
         registers ctx' !! k =
           Some {| reg_name := k; reg_size := reg_size r; reg_value := v |}) /\
    (forall k, registers ctx !! k = None -> registers ctx' !! k = None) /\
    (forall k f, flags ctx !! k = Some f ->
       exists symbol v,
         decl !! curr k = Some symbol /\ value symbol = Ret v /\
         flags ctx' !! k = Some {| flag_name := k; flag_value := v |}) /\
    (forall k, flags ctx !! k = None -> flags ctx' !! k = None) /\
    (forall a x, memory ctx !! a = Some x ->
       exists v,
         value (Select (Translator.get_memory translator (tstate w)) a) = Ret v /\
         memory ctx' !! a = Some v) /\
    (forall a, memory ctx !! a = None -> memory ctx' !! a = None).
Proof.
  intros ctx w ctx' w' Hrun curr decl value.
  unfold Session.get_context_from in Hrun.
  unfold bind at 1 in Hrun.
  match type of Hrun with
  | context [build_dict (map_to_list (registers ctx)) ?body ∅ w] =>
      destruct (build_dict (map_to_list (registers ctx)) body ∅ w)
        as [[regs | e] w1] eqn:Hregs; [| discriminate Hrun];
      apply build_dict_of_map in Hregs as (-> & Hr1 & Hr2)
  end.
  2: { intros k a w0. unfold bind at 1, get_tstate at 1.
       rewrite symbol_value_run.
       destruct (solver_declarations (trace w0) !! _); [| reflexivity].
       destruct (solver_get_value (trace w0) _); reflexivity. }
  unfold bind at 1 in Hrun.
  match type of Hrun with
  | context [build_dict (map_to_list (flags ctx)) ?body ∅ w] =>
      destruct (build_dict (map_to_list (flags ctx)) body ∅ w)
        as [[flgs | e] w1] eqn:Hflags; [| discriminate Hrun];
      apply build_dict_of_map in Hflags as (-> & Hf1 & Hf2)
  end.
  2: { intros k a w0. unfold bind at 1, get_tstate at 1.
       rewrite symbol_value_run.
       destruct (solver_declarations (trace w0) !! _); [| reflexivity].
       destruct (solver_get_value (trace w0) _); reflexivity. }
  unfold bind at 1, get_tstate at 1 in Hrun. unfold bind at 1 in Hrun.
  match type of Hrun with
  | context [build_dict (map_to_list (memory ctx)) ?body ∅ w] =>
      destruct (build_dict (map_to_list (memory ctx)) body ∅ w)
        as [[mems | e] w1] eqn:Hmems; [| discriminate Hrun];
      apply build_dict_of_map in Hmems as (-> & Hm1 & Hm2)
  end.
  2: { intros k a w0. reflexivity. }
  inversion Hrun; subst. cbn [registers flags memory].
  split; [reflexivity |].
  split; [| split; [exact Hr2 | split; [| split; [exact Hf2 | split; [| exact Hm2]]]]].
  - intros k r Hk. destruct (Hr1 k r Hk) as (b & Hb & Hlook).
    unfold bind at 1, get_tstate at 1 in Hb. rewrite symbol_value_run in Hb.
    fold decl value in Hb. fold (curr k) in Hb.
    destruct (decl !! curr k) as [symbol |]; [| discriminate Hb].
    destruct (value symbol) as [v | e] eqn:Hv; [| discriminate Hb].
    inversion Hb; subst. exists symbol, v. repeat split; assumption.
  - intros k f Hk. destruct (Hf1 k f Hk) as (b & Hb & Hlook).
    unfold bind at 1, get_tstate at 1 in Hb. rewrite symbol_value_run in Hb.
    fold decl value in Hb. fold (curr k) in Hb.
    destruct (decl !! curr k) as [symbol |]; [| discriminate Hb].
    destruct (value symbol) as [v | e] eqn:Hv; [| discriminate Hb].
    inversion Hb; subst. exists symbol, v. repeat split; assumption.
  - intros a x Ha. destruct (Hm1 a x Ha) as (b & Hb & Hlook).
    unfold Session.get_value in Hb. fold value in Hb.
    destruct (value _) as [v | e] eqn:Hv; [| discriminate Hb].
    inversion Hb; subst. exists b. split; [reflexivity | assumption].
Qed.

(** X1: when [get_context] returns, the context it returns has exactly the
    keys of the stored one: a register keeps its size, takes its key as name,
    and its value is the solver's value for the symbol declared under the
    register's current name; likewise for flags; a memory cell holds the
    solver's value for the current memory array at that address.  The session
    is left as it was. *)
Theorem X1_get_context_reads_the_model :
  forall ctx (w : world TS Mem) ctx' w',
    get_context_from ctx w = (Ret ctx', w') ->
    let curr := Translator.get_curr_name translator (tstate w) in
    let decl := solver_declarations (trace w) in
    let value := solver_get_value (trace w) in
    w' = w /\
    (forall k r, registers ctx !! k = Some r ->
       exists symbol v,
         decl !! curr k = Some symbol /\ value symbol = Ret v /\
         registers ctx' !! k =
           Some {| reg_name := k; reg_size := reg_size r; reg_value := v |}) /\
    (forall k, registers ctx !! k = None -> registers ctx' !! k = None) /\
    (forall k f, flags ctx !! k = Some f ->
       exists symbol v,
         decl !! curr k = Some symbol /\ value symbol = Ret v /\
         flags ctx' !! k = Some {| flag_name := k; flag_value := v |}) /\
    (forall k, flags ctx !! k = None -> flags ctx' !! k = None) /\
    (forall a x, memory ctx !! a = Some x ->
       exists v,
         value (Select (Translator.get_memory translator (tstate w)) a) = Ret v /\
         memory ctx' !! a = Some v) /\
    (forall a, memory ctx !! a = None -> memory ctx' !! a = None).
Proof.
  intros ctx w ctx' w' Hrun.
  apply get_context_from_sound. exact Hrun.
Qed.



(** X2: [get_context] returns a context, and leaves the session as it was,
    whenever the solver declares a symbol under the current name of every
    register and flag of the stored context and has a value for each of
    them and for every stored memory address. *)
Theorem X2_get_context_succeeds_with_a_model :
  forall ctx (w : world TS Mem),
    let curr := Translator.get_curr_name translator (tstate w) in
    let decl := solver_declarations (trace w) in
    let value := solver_get_value (trace w) in
    (forall k r, registers ctx !! k = Some r ->
       exists symbol v, decl !! curr k = Some symbol /\ value symbol = Ret v) ->
    (forall k f, flags ctx !! k = Some f ->
       exists symbol v, decl !! curr k = Some symbol /\ value symbol = Ret v) ->
    (forall a x, memory ctx !! a = Some x ->
       exists v,
         value (Select (Translator.get_memory translator (tstate w)) a) = Ret v) ->
    exists ctx', get_context_from ctx w = (Ret ctx', w).
Proof.
  intros ctx w curr decl value Hregs Hflags Hmem.
  unfold Session.get_context_from.
  unfold bind at 1.
  match goal with
  | |- context [build_dict (map_to_list (registers ctx)) ?body ∅ w] =>
      destruct (build_dict_complete body (map_to_list (registers ctx)) ∅ w)
        as [regs Hr]
  end.
  { intros k r Hk. apply elem_of_map_to_list in Hk.
    destruct (Hregs k r Hk) as (symbol & v & Hd & Hv).
    unfold bind at 1, get_tstate at 1. rewrite symbol_value_run.
    fold decl value. fold (curr k). rewrite Hd, Hv. eexists. reflexivity. }
  rewrite Hr. unfold bind at 1.
  match goal with
  | |- context [build_dict (map_to_list (flags ctx)) ?body ∅ w] =>
      destruct (build_dict_complete body (map_to_list (flags ctx)) ∅ w)
        as [flgs Hf]
  end.
  { intros k f Hk. apply elem_of_map_to_list in Hk.
    destruct (Hflags k f Hk) as (symbol & v & Hd & Hv).
    unfold bind at 1, get_tstate at 1. rewrite symbol_value_run.
    fold decl value. fold (curr k). rewrite Hd, Hv. eexists. reflexivity. }
  rewrite Hf. unfold bind at 1, get_tstate at 1. unfold bind at 1.
  match goal with
  | |- context [build_dict (map_to_list (memory ctx)) ?body ∅ w] =>
      destruct (build_dict_complete body (map_to_list (memory ctx)) ∅ w)
        as [mems Hm]
  end.
  { intros a x Ha. apply elem_of_map_to_list in Ha.
    destruct (Hmem a x Ha) as (v & Hv).
    unfold Session.get_value. fold value. rewrite Hv. eexists. reflexivity. }
  rewrite Hm. eexists. reflexivity.
Qed.

(** *** Setting a context *)

Lemma set_context_run ctx (w : world TS Mem) :
  set_context ctx w =
    (Ret tt, {| tstate := tstate w;
                trace := trace w ++ (EvAdd <$> context_assertions (tstate w) ctx);
                context := Some ctx |}).
Proof.
  unfold CodeAnalyzer.set_context.
  unfold bind at 1. unfold store_context.
  unfold bind at 1.
  rewrite (for_each_adds (fun ts (kv : string * GenericRegister) =>
             Eq (BitVec (reg_size kv.2)
                   (Translator.get_init_name translator ts (reg_name kv.2)))
                (reg_value kv.2))) by reflexivity.
  unfold emit_all at 1. cbn [tstate trace context].
  unfold bind at 1.
  rewrite (for_each_adds (fun ts (kv : string * GenericFlag) =>
             Eq (BitVec 32 (Translator.get_init_name translator ts (flag_name kv.2)))
                (flag_value kv.2))) by reflexivity.
  unfold emit_all at 1. cbn [tstate trace context].
  unfold bind at 1. unfold get_tstate at 1. cbn [tstate].
  rewrite (for_each_adds (fun _ (kv : Z * Z) =>
             Eq (Select (Translator.get_memory translator (tstate w)) kv.1) kv.2))
    by reflexivity.
  unfold emit_all, Session.context_assertions. cbn [tstate trace context].
  rewrite !fmap_app, <- !list_fmap_compose, <- !app_assoc. reflexivity.
Qed.

(** X3: right after [set_context ctx], [get_context] works on [ctx]: it never
    fails for want of a context, it leaves the session as [set_context] left
    it, and a context it returns has the registers, flags and memory
    addresses of [ctx] and no others, each register with the size it has in
    [ctx]. *)
Theorem X3_get_context_after_set_context :
  forall ctx (w : world TS Mem),
    let w1 := snd (set_context ctx w) in
    exists r,
      get_context w1 = (Completed r, w1) /\
      forall ctx', r = Ret ctx' ->
        dom (registers ctx') = dom (registers ctx) /\
        dom (flags ctx') = dom (flags ctx) /\
        dom (memory ctx') = dom (memory ctx) /\
        forall k r0 r', registers ctx !! k = Some r0 ->
          registers ctx' !! k = Some r' ->
          reg_name r' = k /\ reg_size r' = reg_size r0.
Proof.
  intros ctx w w1. subst w1. rewrite set_context_run. cbn [snd].
  set (w1 := {| tstate := tstate w; trace := _; context := Some ctx |}).
  unfold Session.get_context. cbn [context w1].
  pose proof (get_context_from_pure ctx w1) as Hw.
  destruct (get_context_from ctx w1) as [r w2] eqn:Hrun. simpl in Hw. subst w2.
  exists r. split; [reflexivity |].
  intros ctx' ->.
  destruct (get_context_from_sound _ _ _ _ Hrun)
    as (_ & Hr1 & Hr2 & Hf1 & Hf2 & Hm1 & Hm2).
  assert (Hdom : forall `{Countable K} {A B} (m : gmap K A) (m' : gmap K B),
            (forall k a, m !! k = Some a -> exists b, m' !! k = Some b) ->
            (forall k, m !! k = None -> m' !! k = None) ->
            dom m' = dom m).
  { intros K ? ? A B m m' Hs Hn. apply set_eq. intros k.
    rewrite !elem_of_dom. split; intros [x Hx].
    - destruct (m !! k) as [a |] eqn:Hk; [eexists; reflexivity |].
      rewrite (Hn k Hk) in Hx. discriminate Hx.
    - destruct (Hs k x Hx) as [b Hb]. exists b. exact Hb. }
  split; [| split; [| split]].
  - apply Hdom; [| exact Hr2].
    intros k a Hk. destruct (Hr1 k a Hk) as (s & v & _ & _ & Hl). eexists. exact Hl.
  - apply Hdom; [| exact Hf2].
    intros k a Hk. destruct (Hf1 k a Hk) as (s & v & _ & _ & Hl). eexists. exact Hl.
  - apply Hdom; [| exact Hm2].
    intros k a Hk. destruct (Hm1 k a Hk) as (v & _ & Hl). eexists. exact Hl.
  - intros k r0 r' Hk Hk'. destruct (Hr1 k r0 Hk) as (s & v & _ & _ & Hl).
    rewrite Hl in Hk'. inversion Hk'; subst. split; reflexivity.
Qed.

(** X4: a second [set_context] replaces the stored context but retracts
    nothing: the solver then holds, after what it held before, the
    assertions of the first context followed by those of the second. *)
Theorem X4_set_context_accumulates :
  forall ctx1 ctx2 (w : world TS Mem),
    bind (set_context ctx1) (fun _ => set_context ctx2) w =
      (Ret tt, {| tstate := tstate w;
                  trace := trace w ++
                           (EvAdd <$> (context_assertions (tstate w) ctx1 ++
                                       context_assertions (tstate w) ctx2));
                  context := Some ctx2 |}).
Proof.
  intros ctx1 ctx2 w. unfold bind. rewrite set_context_run, set_context_run.
  cbn [tstate trace context]. rewrite fmap_app, <- app_assoc. reflexivity.
Qed.



(** *** Direct assertions *)

Lemma bind_assoc {A B C} (m : M TS Mem A) (k : A -> M TS Mem B)
    (h : B -> M TS Mem C) (w : world TS Mem) :
  bind (bind m k) h w = bind m (fun x => bind (k x) h) w.
Proof.
  unfold bind. destruct (m w) as [[a | e] w1]; [| reflexivity].
  destruct (k a w1) as [[b | e] w2]; reflexivity.
Qed.

Lemma bind_ext {A B} (m : M TS Mem A) (k k' : A -> M TS Mem B) (w : world TS Mem) :
  (forall a w1, k a w1 = k' a w1) -> bind m k w = bind m k' w.
Proof.
  intros Hk. unfold bind. destruct (m w) as [[a | e] w1]; [apply Hk | reflexivity].
Qed.

Lemma for_each_app {A} (l1 l2 : list A) (body : A -> M TS Mem unit) (w : world TS Mem) :
  for_each (l1 ++ l2) body w = bind (for_each l1 body) (fun _ => for_each l2 body) w.
Proof.
  revert w. induction l1 as [| x l1 IH]; intros w; [reflexivity |].
  cbn [app for_each]. rewrite bind_assoc. apply bind_ext. intros _ w1. apply IH.
Qed.

Lemma reil_loop_branch_free bb_curr bb_next dinstr is_ :
  Forall (fun i => is_JCC (mnemonic i) = false) is_ ->
  forall w : world TS Mem,
    reil_loop bb_curr bb_next dinstr is_ w = for_each is_ add_instruction w.
Proof.
  induction 1 as [| i rest Hi _ IH]; intros w; [reflexivity |].
  cbn [CodeAnalyzer.reil_loop for_each]. rewrite Hi.
  unfold CodeAnalyzer.add_instruction. rewrite bind_assoc.
  apply bind_ext. intros es w1. apply bind_ext. intros _ w2. apply IH.
Qed.

Lemma dinstr_loop_branch_free bb_curr bb_next start ds :
  Forall (fun d => Forall (fun i => is_JCC (mnemonic i) = false) (ir_instrs d)) ds ->
  forall w : world TS Mem,
    dinstr_loop bb_curr bb_next start ds true w =
      bind (for_each (concat (ir_instrs <$> ds)) add_instruction)
           (fun _ => ret true) w.
Proof.
  induction 1 as [| d rest Hd _ IH]; intros w; [reflexivity |].
  cbn [CodeAnalyzer.dinstr_loop negb andb fmap list_fmap concat].
  unfold bind. rewrite for_each_app. unfold bind.
  rewrite (reil_loop_branch_free _ _ _ _ Hd).
  destruct (for_each (ir_instrs d) add_instruction w) as [[[] | e] w1];
    [| reflexivity].
  rewrite IH. reflexivity.
Qed.

(** X5: checking a path of two blocks from the first instruction of a first
    block that holds no conditional jump is the same as calling
    [add_instruction] on each of its IR instructions in order, then
    [check()], and comparing the verdict with "sat". *)
Theorem X5_branch_free_block_is_add_instruction :
  forall bb_curr bb_next dinstr rest (w : world TS Mem),
    instrs bb_curr = dinstr :: rest ->
    Forall (fun d => Forall (fun i => is_JCC (mnemonic i) = false) (ir_instrs d))
           (instrs bb_curr) ->
    check_path_satisfiability [bb_curr; bb_next] (address dinstr) w =
      bind (for_each (concat (ir_instrs <$> instrs bb_curr)) add_instruction)
           (fun _ => bind (check solver_verdict)
                          (fun verdict => ret (String.eqb verdict "sat"))) w.
Proof.
  intros c n d rest w Hin Hfree.
  unfold CodeAnalyzer.check_path_satisfiability.
  cbn [removelast tl combine CodeAnalyzer.block_loop].
  assert (Hloop : forall w0,
            dinstr_loop c n (address d) (instrs c) false w0 =
            dinstr_loop c n (address d) (instrs c) true w0).
  { intros w0. rewrite Hin. cbn [CodeAnalyzer.dinstr_loop].
    rewrite Z.eqb_refl. reflexivity. }
  unfold bind at 1. rewrite Hloop, (dinstr_loop_branch_free _ _ _ _ Hfree).
  unfold bind, Session.check, solver_check.
  destruct (for_each (concat (ir_instrs <$> instrs c)) add_instruction w)
    as [[[] | e] w1]; [| reflexivity].
  cbn [ret].
  destruct (String.eqb (solver_verdict (trace w1)) "sat"); reflexivity.
Qed.

Lemma asserted_app (evs1 evs2 : list (event Mem)) :
  asserted (evs1 ++ evs2) = asserted evs1 ++ asserted evs2.
Proof. unfold asserted. apply omap_app. Qed.

Lemma asserted_adds (es : list (Expr Mem)) : asserted (EvAdd <$> es) = es.
Proof.
  induction es as [| e es IH]; [reflexivity |].
  cbn. unfold asserted in IH. rewrite IH. reflexivity.
Qed.

(** X6: [set_preconditions] and [set_postconditions] hand the solver exactly
    the given conditions, in order, and touch nothing else; so preconditions
    followed by postconditions leave the same session as one call on the two
    lists joined, and the solver's assertions grow by the conditions and by
    nothing more. *)
Theorem X6_conditions_are_added_in_order :
  forall pre post (w : world TS Mem),
    let run := bind (set_preconditions pre) (fun _ => set_postconditions post) w in
    run = (Ret tt, emit_all (EvAdd <$> (pre ++ post)) w) /\
    run = set_postconditions (pre ++ post) w /\
    asserted (trace (snd run)) = asserted (trace w) ++ pre ++ post.
Proof.
  intros pre post w run.
  assert (Hrun : run = (Ret tt, emit_all (EvAdd <$> (pre ++ post)) w)).
  { subst run. unfold set_preconditions, set_postconditions, bind.
    rewrite !for_each_solver_add, emit_all_app, fmap_app. reflexivity. }
  split; [exact Hrun |]. split.
  - rewrite Hrun. unfold set_postconditions. rewrite for_each_solver_add. reflexivity.
  - rewrite Hrun. cbn [snd emit_all trace].
    rewrite asserted_app, asserted_adds. reflexivity.
Qed.


(** *** What a path check can and cannot do to the session *)

Lemma reil_loop_context bb_curr bb_next dinstr is_ :
  forall (w : world TS Mem) r w',
    reil_loop bb_curr bb_next dinstr is_ w = (r, w') -> context w' = context w.
Proof.
  induction is_ as [| i rest IH]; intros w r w' Hrun.
  - inversion Hrun; subst. reflexivity.
  - cbn [CodeAnalyzer.reil_loop] in Hrun.
    destruct (is_JCC (mnemonic i)).
    + assert (Hstop : forall goal,
                match operands i with
                | [] => raise IndexError
                | operand :: _ =>
                    bind (get_operand_var translator operand)
                         (fun v => add_constraint (Eq v goal))
                end w = (r, w') -> context w' = context w).
      { intros goal Hg. destruct (operands i) as [| o os].
        - inversion Hg; subst. reflexivity.
        - unfold bind, get_operand_var in Hg.
          destruct (Translator._translate_src_oprnd translator o (tstate w))
            as [[v | e] ts]; inversion Hg; subst; reflexivity. }
      destruct (negb _).
      * unfold bind at 1 in Hrun. unfold log_error in Hrun.
        apply IH in Hrun. exact Hrun.
      * destruct (py_debug && _); [inversion Hrun; subst; reflexivity |].
        destruct (branch_is (taken_branch bb_curr) _); [eapply Hstop; eassumption |].
        destruct (branch_is (not_taken_branch bb_curr) _); [eapply Hstop; eassumption |].
        eapply IH; eassumption.
    + unfold bind at 1 in Hrun. unfold translator_translate in Hrun.
      destruct (Translator.translate translator i (tstate w)) as [[es | e] ts].
      * unfold bind at 1 in Hrun. rewrite for_each_solver_add in Hrun.
        apply IH in Hrun. exact Hrun.
      * inversion Hrun; subst. reflexivity.
Qed.

Lemma dinstr_loop_context bb_curr bb_next start ds :
  forall found (w : world TS Mem) r w',
    dinstr_loop bb_curr bb_next start ds found w = (r, w') -> context w' = context w.
Proof.
  induction ds as [| d rest IH]; intros found w r w' Hrun.
  - inversion Hrun; subst. reflexivity.
  - cbn [CodeAnalyzer.dinstr_loop] in Hrun.
    destruct (negb found && negb (address d =? start)); [eapply IH; eassumption |].
    unfold bind in Hrun.
    destruct (reil_loop bb_curr bb_next d (ir_instrs d) w) as [[[] | e] w1] eqn:Hd;
      apply reil_loop_context in Hd.
    + apply IH in Hrun. congruence.
    + inversion Hrun; subst. exact Hd.
Qed.

Lemma count_checks_app (evs1 evs2 : list (event Mem)) :
  count_checks (evs1 ++ evs2) = (count_checks evs1 + count_checks evs2)%nat.
Proof. unfold count_checks. rewrite List.filter_app, length_app. reflexivity. Qed.

Lemma count_checks_no_check (evs : list (event Mem)) :
  no_check evs -> count_checks evs = 0%nat.
Proof.
  unfold count_checks. induction 1 as [| ev evs Hev _ IH]; [reflexivity |].
  cbn [List.filter]. rewrite Hev. exact IH.
Qed.

Lemma block_loop_frame start pairs :
  forall found sat (w : world TS Mem) r w',
    block_loop start pairs found sat w = (r, w') ->
    exists evs,
      trace w' = trace w ++ evs /\
      context w' = context w /\
      (count_checks evs <= length pairs)%nat.
Proof.
  induction pairs as [| [c n] rest IH]; intros found sat w r w' Hrun.
  - inversion Hrun; subst. exists []. rewrite app_nil_r.
    split; [reflexivity |]. split; [reflexivity | cbn; lia].
  - cbn [CodeAnalyzer.block_loop] in Hrun. unfold bind at 1 in Hrun.
    destruct (dinstr_loop c n start (instrs c) found w) as [[f | e] w1] eqn:Hd.
    + destruct (dinstr_loop_extends _ _ _ _ _ _ _ _ _ _ Hd) as (evs1 & Ht1 & Hn1).
      apply dinstr_loop_context in Hd.
      unfold bind at 1 in Hrun. unfold solver_check at 1 in Hrun.
      destruct (String.eqb (solver_verdict (trace w1)) "sat"); cbn [negb] in Hrun.
      * apply IH in Hrun as (evs & Ht & Hc & Hn). cbn [emit trace context] in Ht, Hc.
        exists (evs1 ++ [EvCheck] ++ evs). split; [| split].
        -- rewrite Ht, Ht1, <- !app_assoc. reflexivity.
        -- congruence.
        -- rewrite !count_checks_app, (count_checks_no_check _ Hn1).
           cbn [length]. change (count_checks [EvCheck (Mem := Mem)]) with 1%nat. lia.
      * inversion Hrun; subst. cbn [emit trace context].
        exists (evs1 ++ [EvCheck]). split; [| split].
        -- rewrite Ht1, <- !app_assoc. reflexivity.
        -- exact Hd.
        -- rewrite count_checks_app, (count_checks_no_check _ Hn1).
           cbn [length]. change (count_checks [EvCheck (Mem := Mem)]) with 1%nat. lia.
    + inversion Hrun; subst.
      destruct (dinstr_loop_extends _ _ _ _ _ _ _ _ _ _ Hd) as (evs1 & Ht1 & Hn1).
      apply dinstr_loop_context in Hd.
      exists evs1. split; [exact Ht1 |]. split; [exact Hd |].
      rewrite (count_checks_no_check _ Hn1). lia.
Qed.

(** X7: however a path check ends, by a result or by an exception, it has
    only added to the session: the trace it leaves is the one it found
    followed by new events, the stored context is untouched, and it has asked
    the solver at most once per block of the path but the last. *)
Theorem X7_path_check_only_extends_the_session :
  forall path start (w : world TS Mem) r w',
    check_path_satisfiability path start w = (r, w') ->
    exists evs,
      trace w' = trace w ++ evs /\
      context w' = context w /\
      (count_checks evs <= length path - 1)%nat.
Proof.
  intros path start w r w' Hrun.
  unfold CodeAnalyzer.check_path_satisfiability in Hrun.
  apply block_loop_frame in Hrun as (evs & Ht & Hc & Hn).
  rewrite consecutive_pairs_length in Hn.
  exists evs. repeat split; assumption.
Qed.

(** *** Which blocks a path check reads *)

Lemma reil_loop_next_address bb_curr bb_next bb_next' dinstr is_ :
  bb_address bb_next = bb_address bb_next' ->
  forall w : world TS Mem,
    reil_loop bb_curr bb_next dinstr is_ w = reil_loop bb_curr bb_next' dinstr is_ w.
Proof.
  intros Ha. induction is_ as [| i rest IH]; intros w; [reflexivity |].
  cbn [CodeAnalyzer.reil_loop]. rewrite <- Ha.
  destruct (is_JCC (mnemonic i)).
  - destruct (negb _); [apply bind_ext; intros; apply IH |].
    destruct (py_debug && _); [reflexivity |].
    destruct (branch_is (taken_branch bb_curr) _); [reflexivity |].
    destruct (branch_is (not_taken_branch bb_curr) _); [reflexivity |].
    apply IH.
  - apply bind_ext. intros es w1. apply bind_ext. intros _ w2. apply IH.
Qed.

Lemma dinstr_loop_next_address bb_curr bb_next bb_next' start ds :
  bb_address bb_next = bb_address bb_next' ->
  forall found (w : world TS Mem),
    dinstr_loop bb_curr bb_next start ds found w =
      dinstr_loop bb_curr bb_next' start ds found w.
Proof.
  intros Ha. induction ds as [| d rest IH]; intros found w; [reflexivity |].
  cbn [CodeAnalyzer.dinstr_loop].
  destruct (negb found && negb (address d =? start)); [apply IH |].
  unfold bind. rewrite (reil_loop_next_address _ _ _ _ _ Ha).
  destruct (reil_loop bb_curr bb_next' d (ir_instrs d) w) as [[[] | e] w1];
    [apply IH | reflexivity].
Qed.

Lemma block_loop_next_address start pairs pairs' :
  Forall2 (fun p p' => p.1 = p'.1 /\ bb_address p.2 = bb_address p'.2) pairs pairs' ->
  forall found sat (w : world TS Mem),
    block_loop start pairs found sat w = block_loop start pairs' found sat w.
Proof.
  induction 1 as [| [c n] [c' n'] rest rest' [Hc Hn] _ IH]; intros found sat w;
    [reflexivity |].
  simpl in Hc, Hn. subst c'. cbn [CodeAnalyzer.block_loop].
  unfold bind at 1 3. rewrite (dinstr_loop_next_address _ _ _ _ _ Hn).
  destruct (dinstr_loop c n' start (instrs c) found w) as [[f | e] w1];
    [| reflexivity].
  apply bind_ext. intros verdict w2.
  destruct (negb _); [reflexivity | apply IH].
Qed.

Lemma consecutive_pairs_last (path : list BasicBlock) (last last' : BasicBlock) :
  bb_address last = bb_address last' ->
  Forall2 (fun p p' => p.1 = p'.1 /\ bb_address p.2 = bb_address p'.2)
    (combine (removelast (path ++ [last])) (tl (path ++ [last])))
    (combine (removelast (path ++ [last'])) (tl (path ++ [last']))).
Proof.
  intros Ha. destruct path as [| a path]; [constructor |].
  revert a. induction path as [| b path IH]; intros a.
  - cbn. constructor; [split; [reflexivity | exact Ha] | constructor].
  - cbn [app]. rewrite !consecutive_pairs_cons.
    constructor; [split; reflexivity | apply (IH b)].
Qed.

(** X8: of the last block of a path the check reads the address only: two
    paths that differ in nothing but the contents of their last block, its
    address being the same, are checked alike, with the same result and the
    same effects. *)
Theorem X8_last_block_is_read_by_address_only :
  forall path last last' start (w : world TS Mem),
    bb_address last = bb_address last' ->
    check_path_satisfiability (path ++ [last]) start w =
      check_path_satisfiability (path ++ [last']) start w.
Proof.
  intros path last last' start w Ha.
  unfold CodeAnalyzer.check_path_satisfiability.
  apply block_loop_next_address, consecutive_pairs_last, Ha.
Qed.


(** *** A start address that is never met *)

Lemma dinstr_loop_not_found bb_curr bb_next start ds (w : world TS Mem) :
  Forall (fun d => address d <> start) ds ->
  dinstr_loop bb_curr bb_next start ds false w = (Ret false, w).
Proof.
  induction 1 as [| d rest Hd _ IH]; [reflexivity |].
  cbn [CodeAnalyzer.dinstr_loop]. apply Z.eqb_neq in Hd. rewrite Hd. exact IH.
Qed.

Lemma block_loop_not_found start pairs :
  Forall (fun p : BasicBlock * BasicBlock =>
            Forall (fun d => address d <> start) (instrs p.1)) pairs ->
  forall sat (w : world TS Mem),
    exists k b,
      block_loop start pairs false sat w =
        (Ret b, emit_all (replicate k EvCheck) w) /\
      (k <= length pairs)%nat /\
      (pairs <> [] -> (0 < k)%nat) /\
      (b = true -> k = length pairs).
Proof.
  induction 1 as [| [c n] rest Hc _ IH]; intros sat w.
  - exists 0%nat, sat. cbn [replicate]. rewrite emit_all_nil.
    repeat split; [lia | congruence].
  - cbn [CodeAnalyzer.block_loop]. unfold bind at 1.
    rewrite (dinstr_loop_not_found _ _ _ _ _ Hc).
    unfold bind at 1. unfold solver_check at 1.
    destruct (String.eqb (solver_verdict (trace w)) "sat"); cbn [negb].
    + destruct (IH true (emit EvCheck w)) as (k & b & Hrun & Hle & _ & Hfull).
      exists (S k), b. rewrite Hrun, emit_emit_all, emit_all_app.
      cbn [replicate app length]. repeat split; [lia | lia |].
      intros Hb. rewrite (Hfull Hb). reflexivity.
    + exists 1%nat, false. cbn [replicate length]. rewrite emit_emit_all.
      repeat split; [lia | lia | discriminate].
Qed.

Lemma in_consecutive_pairs (path : list BasicBlock) (p : BasicBlock * BasicBlock) :
  In p (combine (removelast path) (tl path)) -> In p.1 (removelast path).
Proof. destruct p as [c n]. apply in_combine_l. Qed.

Lemma asserted_checks k : asserted (replicate k (EvCheck (Mem := Mem))) = [].
Proof. induction k as [| k IH]; [reflexivity | exact IH]. Qed.

Lemma translated_checks k : translated (replicate k (EvCheck (Mem := Mem))) = [].
Proof. induction k as [| k IH]; [reflexivity | exact IH]. Qed.

(** X9: when no instruction of any block of the path but the last has the
    start address, the check never raises and does nothing but ask the
    solver: it translates no instruction and adds no assertion, its only
    effects are between one and [len(path) - 1] calls of [solver.check()] on
    what was asserted before, and it returns [True] only after asking once
    per block. *)
Theorem X9_unmet_start_address_only_checks :
  forall path start (w : world TS Mem),
    (2 <= length path)%nat ->
    (forall bb d, In bb (removelast path) -> In d (instrs bb) -> address d <> start) ->
    exists k b,
      check_path_satisfiability path start w =
        (Ret b, emit_all (replicate k EvCheck) w) /\
      (1 <= k <= length path - 1)%nat /\
      (b = true -> k = (length path - 1)%nat) /\
      asserted (trace (emit_all (replicate k EvCheck) w)) = asserted (trace w) /\
      translated (trace (emit_all (replicate k EvCheck) w)) = translated (trace w).
Proof.
  intros path start w Hlen Habsent.
  unfold CodeAnalyzer.check_path_satisfiability.
  destruct (block_loop_not_found start (combine (removelast path) (tl path)))
    with (sat := false) (w := w) as (k & b & Hrun & Hle & Hpos & Hfull).
  { apply List.Forall_forall. intros p Hp. apply List.Forall_forall. intros d Hd.
    apply (Habsent p.1 d); [apply in_consecutive_pairs; exact Hp | exact Hd]. }
  rewrite consecutive_pairs_length in Hle, Hfull.
  exists k, b. split; [exact Hrun |]. split; [| split; [exact Hfull |]].
  - split; [| exact Hle]. apply Hpos. intros Hnil.
    apply (f_equal (@length _)) in Hnil. rewrite consecutive_pairs_length in Hnil.
    simpl in Hnil. lia.
  - cbn [emit_all trace]. unfold asserted, translated. rewrite !omap_app.
    fold (asserted (replicate k (EvCheck (Mem := Mem)))).
    fold (translated (replicate k (EvCheck (Mem := Mem)))).
    rewrite asserted_checks, translated_checks, !app_nil_r. split; reflexivity.
Qed.


(** *** Errors of register resolution *)

(** X10: [get_register_expr] checks the mode before it looks up any size: a
    mode other than "pre" and "post" raises the invalid-mode exception for
    every name.  Under a valid mode a size missing from [registers_size]
    raises [KeyError]: for the name itself when it is no alias, for the base
    register of an alias first, and for the alias when only its own size is
    missing.  None of these changes the session. *)
Theorem X10_register_expr_errors :
  forall name mode (w : world TS Mem),
    (mode <> "pre" -> mode <> "post" ->
       get_register_expr name mode w = (Raise InvalidMode, w)) /\
    (mode = "pre" \/ mode = "post" ->
       (alias_mapper arch_info !! name = None ->
        registers_size arch_info !! name = None ->
          get_register_expr name mode w = (Raise (KeyError name), w)) /\
       (forall base offset,
          alias_mapper arch_info !! name = Some (base, offset) ->
          registers_size arch_info !! base = None ->
            get_register_expr name mode w = (Raise (KeyError base), w)) /\
       (forall base offset base_width,
          alias_mapper arch_info !! name = Some (base, offset) ->
          registers_size arch_info !! base = Some base_width ->
          registers_size arch_info !! name = None ->
            get_register_expr name mode w = (Raise (KeyError name), w))).
Proof.
  intros name mode w. split.
  - intros Hpre Hpost. unfold CodeAnalyzer.get_register_expr.
    destruct (alias_mapper arch_info !! name) as [[base offset] |];
      unfold bind at 1; rewrite (var_name_invalid _ _ _ _ Hpre Hpost); reflexivity.
  - intros Hmode. split; [| split].
    + intros Ha Hs. unfold CodeAnalyzer.get_register_expr. rewrite Ha.
      unfold bind at 1. rewrite (var_name_valid _ _ _ _ Hmode).
      unfold bind, subscript. rewrite Hs. reflexivity.
    + intros base offset Ha Hs. unfold CodeAnalyzer.get_register_expr. rewrite Ha.
      unfold bind at 1. rewrite (var_name_valid _ _ _ _ Hmode).
      unfold bind, subscript. rewrite Hs. reflexivity.
    + intros base offset wb Ha Hb Hs. unfold CodeAnalyzer.get_register_expr.
      rewrite Ha. unfold bind at 1. rewrite (var_name_valid _ _ _ _ Hmode).
      unfold bind, subscript. rewrite Hb, Hs. reflexivity.
Qed.

(** *** The value of a memory expression *)

Lemma little_endian_app (l1 l2 : list Z) :
  little_endian (l1 ++ l2) =
    little_endian l1 + 2 ^ (8 * Z.of_nat (length l1)) * little_endian l2.
Proof.
  induction l1 as [| b l1 IH].
  - cbn [app length little_endian]. change (2 ^ (8 * Z.of_nat 0)) with 1. lia.
  - cbn [app length little_endian]. rewrite IH.
    replace (8 * Z.of_nat (S (length l1))) with (8 + 8 * Z.of_nat (length l1)) by lia.
    rewrite Z.pow_add_r by lia. lia.
Qed.

Lemma little_endian_bound (l : list Z) :
  Forall (fun b => 0 <= b < 2 ^ 8) l ->
  0 <= little_endian l < 2 ^ (8 * Z.of_nat (length l)).
Proof.
  induction 1 as [| b l Hb _ IH].
  - cbn. lia.
  - cbn [length little_endian].
    replace (8 * Z.of_nat (S (length l))) with (8 + 8 * Z.of_nat (length l)) by lia.
    rewrite Z.pow_add_r by lia. nia.
Qed.

Lemma get_memory_expr_ret address size mode (w : world TS Mem) e w' :
  get_memory_expr address size mode w = (Ret e, w') ->
  exists m,
    e = Concat 8 (rev (map (fun index => Select m (address + index)) (seqZ 0 size))).
Proof.
  unfold CodeAnalyzer.get_memory_expr, get_memory, bind, get_tstate.
  destruct (String.eqb mode "pre"); [| destruct (String.eqb mode "post")];
    intros Hrun; inversion Hrun; subst; eexists; reflexivity.
Qed.

Lemma memory_expr_value rho mu (m : Mem) address size :
  eval rho mu
    (Concat 8 (rev (map (fun index => Select m (address + index)) (seqZ 0 size)))) =
  little_endian ((fun index => mu m (address + index) mod 2 ^ 8) <$> seqZ 0 size).
Proof.
  cbn [eval]. rewrite map_rev, concat_value_rev, map_map. reflexivity.
Qed.

(** X11: the value of the expression [get_memory_expr] returns for [size]
    bytes fits in [8 * size] bits: it is at least 0 and below
    [2 ^ (8 * size)], and it is 0 when [size] is not positive. *)
Theorem X11_memory_expr_value_fits :
  forall address size mode (w : world TS Mem) e w' rho mu,
    get_memory_expr address size mode w = (Ret e, w') ->
    0 <= eval rho mu e < 2 ^ (8 * Z.max 0 size).
Proof.
  intros address size mode w e w' rho mu Hrun.
  apply get_memory_expr_ret in Hrun as [m ->]. rewrite memory_expr_value.
  replace (Z.max 0 size) with (Z.of_nat (Z.to_nat size)) by lia.
  rewrite <- (length_seqZ 0 size),
    <- (length_fmap (fun index => mu m (address + index) mod 2 ^ 8)).
  apply little_endian_bound. apply Forall_fmap, Forall_forall. intros index _.
  apply Z.mod_pos_bound. lia.
Qed.

(** X12: memory expressions compose by address: the value read for [m + n]
    bytes at [address] is the value of the first [m] bytes plus [2 ^ (8 * m)]
    times the value of the [n] bytes at [address + m]. *)
Theorem X12_memory_expr_splits_by_address :
  forall address m n mode (w : world TS Mem) e e1 e2 w0 w1 w2 rho mu,
    0 <= m -> 0 <= n ->
    get_memory_expr address (m + n) mode w = (Ret e, w0) ->
    get_memory_expr address m mode w = (Ret e1, w1) ->
    get_memory_expr (address + m) n mode w = (Ret e2, w2) ->
    eval rho mu e = eval rho mu e1 + 2 ^ (8 * m) * eval rho mu e2.
Proof.
  intros address m n mode w e e1 e2 w0 w1 w2 rho mu Hm Hn.
  unfold CodeAnalyzer.get_memory_expr, bind.
  destruct (get_memory translator mode w) as [[mem | ex] w3]; [| discriminate].
  intros H0 H1 H2. inversion H0; inversion H1; inversion H2; subst.
  rewrite !memory_expr_value.
  rewrite (seqZ_app 0 m n) by lia. rewrite fmap_app, little_endian_app.
  rewrite length_fmap, length_seqZ, Z2Nat.id by lia.
  replace (0 + m) with (m + 0) by lia.
  rewrite <- (fmap_add_seqZ m 0 n), <- list_fmap_compose.
  f_equal. f_equal. f_equal.
  apply list_fmap_ext. intros _ index _. cbn. f_equal. f_equal. lia.
Qed.

(** *** Reset *)

(** X13: [reset] empties the solver's session but keeps the stored context:
    after [set_context ctx] and a reset, full or not, nothing is asserted any
    more, yet [get_context] still works on [ctx]; the translator's state is
    reset only by a full reset. *)
Theorem X13_reset_keeps_the_context :
  forall full ctx (w : world TS Mem),
    let w2 := snd (bind (set_context ctx) (fun _ => reset full) w) in
    fst (bind (set_context ctx) (fun _ => reset full) w) = Ret tt /\
    trace w2 = [] /\
    context w2 = Some ctx /\
    tstate w2 = (if full then translator_reset (tstate w) else tstate w) /\
    get_context w2 = (Completed (fst (get_context_from ctx w2)), w2).
Proof.
  intros full ctx w w2.
  assert (Hread : forall w1 : world TS Mem,
            context w1 = Some ctx ->
            get_context w1 = (Completed (fst (get_context_from ctx w1)), w1)).
  { intros w1 Hc. unfold Session.get_context. rewrite Hc.
    pose proof (get_context_from_pure ctx w1) as Hw.
    destruct (get_context_from ctx w1) as [r w3]. simpl in Hw. subst w3.
    reflexivity. }
  assert (Hrun : bind (set_context ctx) (fun _ => reset full) w =
            (Ret tt, {| tstate := if full then translator_reset (tstate w)
                                  else tstate w;
                        trace := []; context := Some ctx |})).
  { unfold bind at 1. rewrite set_context_run.
    unfold Session.reset, bind, solver_reset. cbn [tstate trace context].
    destruct full; reflexivity. }
  subst w2. rewrite Hrun. cbn [fst snd tstate trace context].
  repeat split. apply Hread. reflexivity.
Qed.

End SessionProperties.

(** ** Conditional branches and the start address along a path *)

Section PathProperties.

Context {TS Mem : Type}.
Variable translator : Translator.t TS Mem.
Variable solver_verdict : list (event Mem) -> string.
Variable py_debug : bool.

Local Abbreviation reil_loop := (reil_loop translator py_debug).
Local Abbreviation dinstr_loop := (dinstr_loop translator py_debug).
Local Abbreviation block_loop := (block_loop translator solver_verdict py_debug).
Local Abbreviation check_path_satisfiability :=
  (check_path_satisfiability translator solver_verdict py_debug).
Local Abbreviation add_instruction := (add_instruction translator).
Local Abbreviation check_from := (check_from translator solver_verdict py_debug).
Local Abbreviation reaches := (reaches translator solver_verdict py_debug).

Lemma consecutive_cons (a b : BasicBlock) (l : list BasicBlock) :
  consecutive (a :: b :: l) = (a, b) :: consecutive (b :: l).
Proof. reflexivity. Qed.

Lemma consecutive_app (p : list BasicBlock) (c n : BasicBlock) (l : list BasicBlock) :
  consecutive (p ++ c :: n :: l) =
    consecutive (p ++ [c]) ++ (c, n) :: consecutive (n :: l).
Proof.
  destruct p as [| a p]; [reflexivity |].
  revert a. induction p as [| b p IH]; intros a; [reflexivity |].
  cbn [app]. rewrite !consecutive_cons. cbn [app]. f_equal. exact (IH b).
Qed.

Lemma consecutive_firsts (p : list BasicBlock) (c : BasicBlock) :
  (consecutive (p ++ [c])).*1 = p.
Proof.
  destruct p as [| a p]; [reflexivity |].
  revert a. induction p as [| b p IH]; intros a; [reflexivity |].
  cbn [app]. rewrite consecutive_cons. cbn [fmap list_fmap fst].
  f_equal. apply (IH b).
Qed.

Lemma dinstr_loop_flag bb_curr bb_next start ds :
  forall found (w : world TS Mem) found' w',
    dinstr_loop bb_curr bb_next start ds found w = (Ret found', w') ->
    found' = found || existsb (fun d => address d =? start) ds.
Proof.
  induction ds as [| d rest IH]; intros found w found' w' Hrun.
  - inversion Hrun. cbn. rewrite orb_false_r. reflexivity.
  - cbn [CodeAnalyzer.dinstr_loop existsb] in *.
    destruct found; cbn [negb andb] in Hrun.
    + unfold bind in Hrun.
      destruct (reil_loop bb_curr bb_next d (ir_instrs d) w) as [[[] | e] w1];
        [| discriminate Hrun].
      apply IH in Hrun. exact Hrun.
    + destruct (address d =? start); cbn [negb orb] in *.
      * unfold bind in Hrun.
        destruct (reil_loop bb_curr bb_next d (ir_instrs d) w) as [[[] | e] w1];
          [| discriminate Hrun].
        apply IH in Hrun. exact Hrun.
      * apply IH in Hrun. exact Hrun.
Qed.

Lemma dinstr_loop_app bb_curr bb_next start ds1 ds2 :
  forall found (w : world TS Mem),
    dinstr_loop bb_curr bb_next start (ds1 ++ ds2) found w =
      bind (dinstr_loop bb_curr bb_next start ds1 found)
           (fun found' => dinstr_loop bb_curr bb_next start ds2 found') w.
Proof.
  induction ds1 as [| d rest IH]; intros found w; [reflexivity |].
  cbn [app CodeAnalyzer.dinstr_loop].
  destruct (negb found && negb (address d =? start)); [apply IH |].
  rewrite bind_assoc. apply bind_ext. intros _ w1. apply IH.
Qed.

Lemma dinstr_loop_enter bb_curr bb_next start d rest found (w : world TS Mem) :
  found = true \/ address d = start ->
  dinstr_loop bb_curr bb_next start (d :: rest) found w =
    bind (reil_loop bb_curr bb_next d (ir_instrs d))
         (fun _ => dinstr_loop bb_curr bb_next start rest true) w.
Proof.
  intros [-> | <-]; cbn [CodeAnalyzer.dinstr_loop negb andb]; [reflexivity |].
  rewrite Z.eqb_refl, andb_false_r. reflexivity.
Qed.

Lemma reil_loop_app_branch_free bb_curr bb_next dinstr irs l :
  Forall (fun i => is_JCC (mnemonic i) = false) irs ->
  forall w : world TS Mem,
    reil_loop bb_curr bb_next dinstr (irs ++ l) w =
      bind (for_each irs add_instruction)
           (fun _ => reil_loop bb_curr bb_next dinstr l) w.
Proof.
  induction 1 as [| i rest Hi _ IH]; intros w; [reflexivity |].
  cbn [app CodeAnalyzer.reil_loop for_each]. rewrite Hi.
  unfold CodeAnalyzer.add_instruction. rewrite !bind_assoc.
  apply bind_ext. intros es w1.
  apply bind_ext. intros _ w2. apply IH.
Qed.

Lemma block_loop_app start ps1 ps2 :
  forall found sat (w : world TS Mem) w1,
    block_loop start ps1 found sat w = (Ret true, w1) ->
    block_loop start (ps1 ++ ps2) found sat w =
      block_loop start ps2 (found || start_found start ps1.*1) true w1.
Proof.
  induction ps1 as [| [c n] rest IH]; intros found sat w w1 Hrun.
  - inversion Hrun; subst. cbn. rewrite orb_false_r. reflexivity.
  - cbn [app CodeAnalyzer.block_loop] in *. unfold bind at 1 in Hrun.
    unfold bind at 1.
    destruct (dinstr_loop c n start (instrs c) found w) as [[f | e] w0] eqn:Hd;
      [| discriminate Hrun].
    apply dinstr_loop_flag in Hd. subst f.
    unfold bind at 1 in Hrun. unfold bind at 1.
    unfold solver_check at 1 in Hrun. unfold solver_check at 1.
    destruct (String.eqb (solver_verdict (trace w0)) "sat"); cbn [negb] in *;
      [| discriminate Hrun].
    rewrite (IH _ _ _ _ Hrun). cbn [fmap list_fmap fst start_found existsb].
    rewrite orb_assoc. reflexivity.
Qed.

Lemma block_loop_cons_sat start p ps found sat sat' (w : world TS Mem) :
  block_loop start (p :: ps) found sat w = block_loop start (p :: ps) found sat' w.
Proof. destruct p. reflexivity. Qed.

(** The check of a path, seen from an instruction it reaches. *)
Lemma check_path_from_reached path_before bb_curr bb_next path_after
    before dinstr after reil_before reil_instrs start (w w2 : world TS Mem) :
  instrs bb_curr = before ++ dinstr :: after ->
  ir_instrs dinstr = reil_before ++ reil_instrs ->
  reaches path_before bb_curr bb_next before dinstr reil_before start w w2 ->
  check_path_satisfiability (path_before ++ bb_curr :: bb_next :: path_after) start w =
    check_from start bb_curr bb_next dinstr reil_instrs after
      (consecutive (bb_next :: path_after)) w2.
Proof.
  intros Hin Hir (w0 & found & w1 & Hblocks & Hbefore & Henter & Hfree & Hirs).
  unfold CodeAnalyzer.check_path_satisfiability.
  fold (consecutive (path_before ++ bb_curr :: bb_next :: path_after)).
  rewrite consecutive_app.
  assert (Hstart : block_loop start
            (consecutive (path_before ++ [bb_curr]) ++
             (bb_curr, bb_next) :: consecutive (bb_next :: path_after)) false false w =
          block_loop start ((bb_curr, bb_next) :: consecutive (bb_next :: path_after))
            (start_found start path_before) true w0).
  { destruct Hblocks as [[-> ->] | Hrun].
    - apply block_loop_cons_sat.
    - unfold CodeAnalyzer.check_path_satisfiability in Hrun.
      fold (consecutive (path_before ++ [bb_curr])) in Hrun.
      rewrite (block_loop_app _ _ _ _ _ _ _ Hrun), consecutive_firsts. reflexivity. }
  rewrite Hstart. cbn [CodeAnalyzer.block_loop]. unfold PathCheck.check_from.
  rewrite Hin. unfold bind at 1. rewrite dinstr_loop_app. unfold bind at 1.
  rewrite Hbefore. rewrite (dinstr_loop_enter _ _ _ _ _ _ _ Henter).
  rewrite Hir. unfold bind at 1.
  rewrite (reil_loop_app_branch_free _ _ _ _ _ Hfree). unfold bind at 1.
  rewrite Hirs. unfold bind.
  destruct (reil_loop bb_curr bb_next dinstr reil_instrs w2) as [[[] | e] w3];
    [| reflexivity].
  destruct (dinstr_loop bb_curr bb_next start after true w3) as [[f | e] w4];
    reflexivity.
Qed.

Lemma check_from_extends start bb_curr bb_next dinstr reil_instrs dinstrs pairs
    (w : world TS Mem) r w' :
  check_from start bb_curr bb_next dinstr reil_instrs dinstrs pairs w = (r, w') ->
  exists evs, trace w' = trace w ++ evs.
Proof.
  unfold PathCheck.check_from, bind. intros Hrun.
  destruct (reil_loop bb_curr bb_next dinstr reil_instrs w) as [[[] | e] w1] eqn:H1;
    apply reil_loop_extends in H1 as (evs1 & Ht1 & _).
  2: { inversion Hrun; subst. exists evs1. exact Ht1. }
  destruct (dinstr_loop bb_curr bb_next start dinstrs true w1) as [[f | e] w2] eqn:H2;
    apply dinstr_loop_extends in H2 as (evs2 & Ht2 & _).
  2: { inversion Hrun; subst. exists (evs1 ++ evs2).
       rewrite Ht2, Ht1, <- app_assoc. reflexivity. }
  unfold solver_check in Hrun.
  destruct (negb _).
  - inversion Hrun; subst. cbn [emit trace]. exists (evs1 ++ evs2 ++ [EvCheck]).
    rewrite Ht2, Ht1, <- !app_assoc. reflexivity.
  - apply block_loop_frame in Hrun as (evs3 & Ht3 & _). cbn [emit trace] in Ht3.
    exists (evs1 ++ evs2 ++ [EvCheck] ++ evs3).
    rewrite Ht3, Ht2, Ht1, <- !app_assoc. reflexivity.
Qed.






(** C1, as the code has it: when a path check reaches a well-positioned
    conditional branch and no branch field of the current block equals the
    address of the next block, the [assert] of the loop fails: with
    assertions enabled the check ends there with [AssertionError], in the
    session as it stood on reaching the branch, so nothing more is
    translated, asserted or asked.  Only when the interpreter runs without
    assertions is the branch skipped in silence and the check continued with
    the instructions that follow it. *)
Theorem C1_unmatched_edge_fails_assertion :
  forall path_before bb_curr bb_next path_after before dinstr after
         reil_before i rest start (w w2 : world TS Mem),
    instrs bb_curr = before ++ dinstr :: after ->
    ir_instrs dinstr = reil_before ++ i :: rest ->
    reaches path_before bb_curr bb_next before dinstr reil_before start w w2 ->
    is_JCC (mnemonic i) = true ->
    address dinstr + asm_size (asm_instr dinstr) - 1 = end_address bb_curr ->
    branch_is (taken_branch bb_curr) (bb_address bb_next) = false ->
    branch_is (not_taken_branch bb_curr) (bb_address bb_next) = false ->
    branch_is (direct_branch bb_curr) (bb_address bb_next) = false ->
    let run :=
      check_path_satisfiability (path_before ++ bb_curr :: bb_next :: path_after)
        start w in
    (py_debug = true -> run = (Raise AssertionError, w2)) /\
    (py_debug = false ->
       run = check_from start bb_curr bb_next dinstr rest after
               (consecutive (bb_next :: path_after)) w2).
Proof.
  intros p c n q before d after irs i rest start w w2 Hin Hir Hreach Hj Hp Ht Hn Hd run.
  subst run. rewrite (check_path_from_reached p c n q _ _ _ _ _ _ _ _ Hin Hir Hreach).
  unfold PathCheck.check_from.
  split; intros Hdbg; unfold bind at 1;
    rewrite (reil_loop_jcc_positioned _ _ _ _ _ _ _ Hj Hp), Ht, Hn, Hd, Hdbg;
    reflexivity.
Qed.

(** C2: when a path check reaches a well-positioned conditional branch, the
    edge to the next block is chosen by comparing its address with
    [taken_branch], then [not_taken_branch], then [direct_branch].  On the
    taken edge the check asserts, as the next thing it does, that the
    translator's expression for the first operand of the branch equals 1; on
    the not-taken edge, that it equals 0; in both cases the IR instructions
    after the branch are dropped and the check goes on with the rest of the
    block.  On an edge that matches [direct_branch] only, nothing is asserted
    for the branch and the check goes on with the IR instructions that follow
    it, from the same session. *)
Theorem C2_branch_goal_by_edge :
  forall path_before bb_curr bb_next path_after before dinstr after
         reil_before i rest operand others start (w w2 : world TS Mem),
    instrs bb_curr = before ++ dinstr :: after ->
    ir_instrs dinstr = reil_before ++ i :: rest ->
    reaches path_before bb_curr bb_next before dinstr reil_before start w w2 ->
    is_JCC (mnemonic i) = true ->
    address dinstr + asm_size (asm_instr dinstr) - 1 = end_address bb_curr ->
    operands i = operand :: others ->
    let run :=
      check_path_satisfiability (path_before ++ bb_curr :: bb_next :: path_after)
        start w in
    let asserting := fun goal =>
      forall branch_var ts,
        Translator._translate_src_oprnd translator operand (tstate w2) =
          (Ret branch_var, ts) ->
        run = check_from start bb_curr bb_next dinstr [] after
                (consecutive (bb_next :: path_after))
                {| tstate := ts;
                   trace := trace w2 ++ [EvAdd (Eq branch_var goal)];
                   context := context w2 |} /\
        exists evs, trace (snd run) = trace w2 ++ EvAdd (Eq branch_var goal) :: evs in
    (branch_is (taken_branch bb_curr) (bb_address bb_next) = true -> asserting 1) /\
    (branch_is (taken_branch bb_curr) (bb_address bb_next) = false ->
     branch_is (not_taken_branch bb_curr) (bb_address bb_next) = true ->
       asserting 0) /\
    (branch_is (taken_branch bb_curr) (bb_address bb_next) = false ->
     branch_is (not_taken_branch bb_curr) (bb_address bb_next) = false ->
     branch_is (direct_branch bb_curr) (bb_address bb_next) = true ->
       run = check_from start bb_curr bb_next dinstr rest after
               (consecutive (bb_next :: path_after)) w2).
Proof.
  intros p c n q before d after irs i rest o os start w w2 Hin Hir Hreach Hj Hp Hops
         run asserting.
  assert (Hrun : run = check_from start c n d (i :: rest) after
                         (consecutive (n :: q)) w2).
  { subst run. apply (check_path_from_reached p c n q _ _ _ _ _ _ _ _ Hin Hir Hreach). }
  assert (Hgoal : forall goal,
            reil_loop c n d (i :: rest) w2 =
              bind (get_operand_var translator o)
                   (fun v => add_constraint (Eq v goal)) w2 ->
            asserting goal).
  { intros goal Hloop v ts Hv.
    assert (Heq : run = check_from start c n d [] after (consecutive (n :: q))
                          {| tstate := ts;
                             trace := trace w2 ++ [EvAdd (Eq v goal)];
                             context := context w2 |}).
    { rewrite Hrun. unfold PathCheck.check_from. unfold bind at 1 4.
      rewrite Hloop. unfold bind at 1, get_operand_var. rewrite Hv. reflexivity. }
    split; [exact Heq |]. rewrite Heq.
    match goal with
    | |- context [check_from ?s ?a ?b ?e ?l ?r ?ps ?w0] =>
        destruct (check_from s a b e l r ps w0) as [res w'] eqn:Hc
    end.
    apply check_from_extends in Hc as (evs & Ht). cbn [trace snd] in *.
    exists evs. rewrite Ht, <- app_assoc. reflexivity. }
  split; [| split].
  - intros Ht. apply Hgoal.
    rewrite (reil_loop_jcc_positioned _ _ _ _ _ _ _ Hj Hp), Hops, Ht.
    simpl. rewrite andb_false_r. reflexivity.
  - intros Ht Hn. apply Hgoal.
    rewrite (reil_loop_jcc_positioned _ _ _ _ _ _ _ Hj Hp), Hops, Ht, Hn.
    simpl. rewrite andb_false_r. reflexivity.
  - intros Ht Hn Hd. rewrite Hrun. unfold PathCheck.check_from. unfold bind at 1 4.
    rewrite (reil_loop_jcc_positioned _ _ _ _ _ _ _ Hj Hp), Ht, Hn, Hd.
    simpl. rewrite andb_false_r. reflexivity.
Qed.


End PathProperties.

(** ** Printing *)

Lemma string_app_assoc (s1 s2 s3 : string) : (s1 +:+ s2) +:+ s3 = s1 +:+ s2 +:+ s3.
Proof.
  induction s1 as [| c s1 IH]; [reflexivity |].
  change (String c (s1 +:+ s2) +:+ s3 = String c (s1 +:+ s2 +:+ s3)).
  change (String c ((s1 +:+ s2) +:+ s3) = String c (s1 +:+ s2 +:+ s3)).
  rewrite IH. reflexivity.
Qed.

Lemma string_app_length (s1 s2 : string) :
  String.length (s1 +:+ s2) = (String.length s1 + String.length s2)%nat.
Proof.
  induction s1 as [| c s1 IH]; [reflexivity |].
  change (S (String.length (s1 +:+ s2)) = S (String.length s1 + String.length s2)).
  rewrite IH. reflexivity.
Qed.

Lemma zeros_length k : String.length (zeros k) = k.
Proof. induction k as [| k IH]; [reflexivity | cbn; rewrite IH; reflexivity]. Qed.

Lemma parse_zeros k s :
  HexadecimalString.NilEmpty.uint_of_string (zeros k +:+ s) =
    Nat.iter k Hexadecimal.D0 <$> HexadecimalString.NilEmpty.uint_of_string s.
Proof.
  induction k as [| k IH].
  - change (zeros 0 +:+ s) with s.
    destruct (HexadecimalString.NilEmpty.uint_of_string s); reflexivity.
  - change (zeros (S k) +:+ s) with (String "0"%char (zeros k +:+ s)).
    cbn [HexadecimalString.NilEmpty.uint_of_string]. rewrite IH.
    destruct (HexadecimalString.NilEmpty.uint_of_string s); reflexivity.
Qed.

Lemma of_hex_zeros k d :
  N.of_hex_uint (Nat.iter k Hexadecimal.D0 d) = N.of_hex_uint d.
Proof. induction k as [| k IH]; [reflexivity | exact IH]. Qed.

Lemma to_hex_nonnil n : N.to_hex_uint n <> Hexadecimal.Nil.
Proof.
  destruct n; simpl; [discriminate | apply HexadecimalPos.Unsigned.to_uint_nonnil].
Qed.

Lemma parse_digits n :
  N.of_hex_uint <$> HexadecimalString.NilEmpty.uint_of_string (hex n) = Some n.
Proof.
  unfold hex.
  pose proof (HexadecimalString.NilZero.usu _ (to_hex_nonnil n)) as Hu.
  unfold HexadecimalString.NilZero.uint_of_string in Hu.
  destruct (HexadecimalString.NilZero.string_of_uint (N.to_hex_uint n)) eqn:Hs;
    [discriminate Hu |].
  rewrite Hu. simpl. f_equal. apply HexadecimalN.Unsigned.of_to.
Qed.

Lemma hex_no_sign n k :
  exists c s, zeros k +:+ hex n = String c s /\ c <> "-"%char.
Proof.
  destruct k as [| k].
  - change (zeros 0 +:+ hex n) with (hex n).
    pose proof (to_hex_nonnil n) as Hn.
    unfold hex. destruct (N.to_hex_uint n) eqn:Hd; [contradiction | ..];
      (eexists _, _; split; [reflexivity | discriminate]).
  - change (zeros (S k) +:+ hex n) with (String "0"%char (zeros k +:+ hex n)).
    eexists _, _. split; [reflexivity | discriminate].
Qed.

Lemma format_08x_parse v : parse_hex (format_08x v) = Some v.
Proof.
  unfold format_08x. destruct (Z.ltb_spec v 0) as [Hneg | Hpos].
  - cbn [parse_hex]. rewrite parse_zeros.
    pose proof (parse_digits (Z.abs_N v)) as Hd.
    destruct (HexadecimalString.NilEmpty.uint_of_string (hex (Z.abs_N v))) as [d |];
      [| discriminate Hd].
    simpl in *. inversion Hd as [Hd']. rewrite of_hex_zeros, Hd'. f_equal. lia.
  - destruct (hex_no_sign (Z.abs_N v) (8 - String.length (hex (Z.abs_N v))))
      as (c & s & Hs & Hc).
    assert (Hp : parse_hex (String c s) =
              (fun d => Z.of_N (N.of_hex_uint d)) <$>
                HexadecimalString.NilEmpty.uint_of_string (String c s)).
    { unfold parse_hex. destruct c as [[] [] [] [] [] [] [] []]; try reflexivity.
      contradiction Hc. reflexivity. }
    rewrite Hs, Hp, <- Hs, parse_zeros.
    pose proof (parse_digits (Z.abs_N v)) as Hd.
    destruct (HexadecimalString.NilEmpty.uint_of_string (hex (Z.abs_N v))) as [d |];
      [| discriminate Hd].
    simpl in *. inversion Hd as [Hd']. rewrite of_hex_zeros, Hd'. f_equal. lia.
Qed.

Lemma format_08x_length v : (8 <= String.length (format_08x v))%nat.
Proof.
  unfold format_08x. destruct (v <? 0).
  - cbn [String.length]. rewrite string_app_length, zeros_length. lia.
  - rewrite string_app_length, zeros_length. lia.
Qed.

(** X14: the number in the text of a register or flag is its value in
    hexadecimal, at least eight characters wide, and can be read back: two
    registers (or flags) of the same name print alike only when they hold the
    same value. *)
Theorem X14_printed_value_reads_back :
  (forall v,
     parse_hex (format_08x v) = Some v /\ (8 <= String.length (format_08x v))%nat) /\
  (forall r1 r2,
     reg_name r1 = reg_name r2 ->
     GenericRegister_str r1 = GenericRegister_str r2 ->
     reg_value r1 = reg_value r2) /\
  (forall f1 f2,
     flag_name f1 = flag_name f2 ->
     GenericFlag_str f1 = GenericFlag_str f2 ->
     flag_value f1 = flag_value f2).
Proof.
  assert (Hinj : forall name v1 v2,
            name +:+ " : 0x" +:+ format_08x v1 = name +:+ " : 0x" +:+ format_08x v2 ->
            v1 = v2).
  { intros name v1 v2 Heq.
    apply (inj (String.append name)), (inj (String.append " : 0x")) in Heq.
    apply (f_equal parse_hex) in Heq. rewrite !format_08x_parse in Heq.
    congruence. }
  split; [| split].
  - intros v. split; [apply format_08x_parse | apply format_08x_length].
  - intros r1 r2 Hn Hs. unfold GenericRegister_str in Hs. rewrite Hn in Hs.
    exact (Hinj _ _ _ Hs).
  - intros f1 f2 Hn Hs. unfold GenericFlag_str in Hs. rewrite Hn in Hs.
    exact (Hinj _ _ _ Hs).
Qed.

Lemma fold_left_lines {A} (line : A -> string) (l : list A) (s0 : string) :
  fold_left (fun s x => s +:+ line x) l s0 =
    s0 +:+ foldr (fun x acc => line x +:+ acc) "" l.
Proof.
  revert s0. induction l as [| x l IH]; intros s0.
  - cbn. clear. induction s0 as [| c s0 IH]; [reflexivity |].
    change (String c s0 = String c (s0 +:+ "")). rewrite <- IH. reflexivity.
  - cbn [fold_left foldr]. rewrite IH, string_app_assoc. reflexivity.
Qed.

Lemma lines_elem {A} (line : A -> string) (l : list A) (x : A) :
  x ∈ l ->
  exists before after,
    foldr (fun x acc => line x +:+ acc) "" l = before +:+ line x +:+ after.
Proof.
  intros Hx. apply list_elem_of_split in Hx as (l1 & l2 & ->).
  exists (foldr (fun x acc => line x +:+ acc) "" l1),
         (foldr (fun x acc => line x +:+ acc) "" l2).
  induction l1 as [| y l1 IH]; [reflexivity |].
  cbn [app foldr]. rewrite IH, string_app_assoc. reflexivity.
Qed.

Lemma line_after (prefix text line : string) :
  (exists before after, text = before +:+ line +:+ after) ->
  exists before after, prefix +:+ text = before +:+ line +:+ after.
Proof.
  intros (b & a & ->). exists (prefix +:+ b), a.
  rewrite !string_app_assoc. reflexivity.
Qed.

Lemma line_before (text suffix line : string) :
  (exists before after, text = before +:+ line +:+ after) ->
  exists before after, text +:+ suffix = before +:+ line +:+ after.
Proof.
  intros (b & a & ->). exists b, (a +:+ suffix).
  rewrite !string_app_assoc. reflexivity.
Qed.

(** X15: the text of a context holds one line for each of its entries: for
    every register and every flag the line made of eight spaces and the text
    of the descriptor, and for every memory address the line with the address
    and the value in hexadecimal. *)
Theorem X15_context_text_lists_every_entry :
  forall ctx,
    (forall k r, registers ctx !! k = Some r ->
       exists before after,
         GenericContext_str ctx =
           before +:+ ("        " +:+ GenericRegister_str r +:+ newline) +:+ after) /\
    (forall k f, flags ctx !! k = Some f ->
       exists before after,
         GenericContext_str ctx =
           before +:+ ("        " +:+ GenericFlag_str f +:+ newline) +:+ after) /\
    (forall a v, memory ctx !! a = Some v ->
       exists before after,
         GenericContext_str ctx =
           before +:+
           (("        0x" +:+ format_08x a +:+ " : 0x" +:+ format_08x v) +:+ newline) +:+
           after).
Proof.
  intros ctx. unfold GenericContext_str.
  rewrite (fold_left_lines (fun kv : string * GenericRegister =>
             "        " +:+ GenericRegister_str kv.2 +:+ newline)).
  rewrite (fold_left_lines (fun kv : string * GenericFlag =>
             "        " +:+ GenericFlag_str kv.2 +:+ newline)).
  rewrite (fold_left_lines (fun kv : Z * Z =>
             ("        0x" +:+ format_08x kv.1 +:+ " : 0x" +:+ format_08x kv.2)
               +:+ newline)).
  split; [| split].
  - intros k r Hk. apply elem_of_map_to_list in Hk.
    do 4 apply line_before. apply line_after.
    exact (lines_elem (fun kv : string * GenericRegister =>
             "        " +:+ GenericRegister_str kv.2 +:+ newline) _ _ Hk).
  - intros k f Hk. apply elem_of_map_to_list in Hk.
    do 2 apply line_before. apply line_after.
    exact (lines_elem (fun kv : string * GenericFlag =>
             "        " +:+ GenericFlag_str kv.2 +:+ newline) _ _ Hk).
  - intros a v Ha. apply elem_of_map_to_list in Ha.
    apply line_after.
    exact (lines_elem (fun kv : Z * Z =>
             ("        0x" +:+ format_08x kv.1 +:+ " : 0x" +:+ format_08x kv.2)
               +:+ newline) _ _ Ha).
Qed.

(** ** The rest of the interface on concrete inputs *)

Lemma X1_witness :
  get_context_from demo_translator demo_declarations demo_get_value
      demo_context demo_world =
    (Ret demo_read_context, demo_world) /\
  exists symbol v,
    demo_declarations (trace demo_world) !! "eax_0" = Some symbol /\
    demo_get_value (trace demo_world) symbol = Ret v /\
    registers demo_read_context !! "eax" =
      Some {| reg_name := "eax"; reg_size := 32; reg_value := v |}.
Proof.
  assert (Hrun : get_context_from demo_translator demo_declarations demo_get_value
                   demo_context demo_world = (Ret demo_read_context, demo_world))
    by (vm_compute; reflexivity).
  split; [exact Hrun |].
  destruct (X1_get_context_reads_the_model demo_translator demo_declarations
              demo_get_value demo_context demo_world demo_read_context demo_world Hrun)
    as (_ & Hregs & _).
  apply (Hregs "eax" {| reg_name := "eax"; reg_size := 32; reg_value := 5 |}).
  vm_compute. reflexivity.
Defined.

Lemma X2_witness :
  (forall k r, registers demo_context !! k = Some r ->
     exists symbol v,
       demo_declarations (trace demo_world) !!
         Translator.get_curr_name demo_translator (tstate demo_world) k = Some symbol /\
       demo_get_value (trace demo_world) symbol = Ret v) /\
  exists ctx',
    get_context_from demo_translator demo_declarations demo_get_value
      demo_context demo_world = (Ret ctx', demo_world).
Proof.
  assert (Hregs : forall k r, registers demo_context !! k = Some r ->
            exists symbol v,
              demo_declarations (trace demo_world) !!
                Translator.get_curr_name demo_translator (tstate demo_world) k =
                Some symbol /\
              demo_get_value (trace demo_world) symbol = Ret v).
  { intros k r Hk. cbn [registers demo_context] in Hk.
    apply lookup_singleton_Some in Hk as [<- _].
    eexists _, _. split; vm_compute; reflexivity. }
  split; [exact Hregs |].
  apply (X2_get_context_succeeds_with_a_model demo_translator demo_declarations
           demo_get_value demo_context demo_world Hregs).
  - intros k f Hk. cbn [flags demo_context] in Hk.
    apply lookup_singleton_Some in Hk as [<- _].
    eexists _, _. split; vm_compute; reflexivity.
  - intros a x Ha. eexists. reflexivity.
Defined.

Lemma X5_witness :
  instrs block_b = dual 32 2 [add_instr 8192] :: [dual 34 2 [add_instr 8704]] /\
  check_path_satisfiability demo_translator always_sat true [block_b; block_c] 32
      demo_world =
    bind (for_each [add_instr 8192; add_instr 8704] (add_instruction demo_translator))
         (fun _ => bind (check always_sat)
                        (fun verdict => ret (String.eqb verdict "sat")))
         demo_world.
Proof.
  split; [reflexivity |].
  apply (X5_branch_free_block_is_add_instruction demo_translator always_sat true
           block_b block_c (dual 32 2 [add_instr 8192]) [dual 34 2 [add_instr 8704]]).
  - reflexivity.
  - repeat constructor.
Defined.

Lemma X7_witness :
  check_path_satisfiability demo_translator always_sat true demo_path 16 demo_world =
    (Ret true, demo_final) /\
  exists evs,
    trace demo_final = trace demo_world ++ evs /\
    context demo_final = context demo_world /\
    (count_checks evs <= length demo_path - 1)%nat.
Proof.
  assert (Hrun : check_path_satisfiability demo_translator always_sat true
                   demo_path 16 demo_world = (Ret true, demo_final))
    by (vm_compute; reflexivity).
  split; [exact Hrun |].
  exact (X7_path_check_only_extends_the_session demo_translator always_sat true
           demo_path 16 demo_world (Ret true) demo_final Hrun).
Defined.

Lemma X8_witness :
  bb_address block_c = bb_address block_c_other /\
  check_path_satisfiability demo_translator always_sat true
      ([block_a (Some 32) None None; block_b] ++ [block_c]) 16 demo_world =
    check_path_satisfiability demo_translator always_sat true
      ([block_a (Some 32) None None; block_b] ++ [block_c_other]) 16 demo_world.
Proof.
  split; [reflexivity |].
  apply (X8_last_block_is_read_by_address_only demo_translator always_sat true).
  reflexivity.
Defined.

Lemma X9_witness :
  (2 <= length late_path)%nat /\
  exists k b,
    check_path_satisfiability demo_translator always_sat true late_path 999 demo_world =
      (Ret b, emit_all (replicate k EvCheck) demo_world) /\
    (1 <= k <= length late_path - 1)%nat.
Proof.
  split; [simpl; lia |].
  destruct (X9_unmet_start_address_only_checks demo_translator always_sat true
              late_path 999 demo_world) as (k & b & Hrun & Hk & _).
  - simpl. lia.
  - intros bb d Hbb Hd. simpl in Hbb.
    destruct Hbb as [<- | [<- | []]]; simpl in Hd;
      destruct Hd as [<- | [<- | []]]; simpl; lia.
  - exists k, b. split; [exact Hrun | exact Hk].
Defined.

Lemma X10_witness :
  "both" <> "pre" /\ "both" <> "post" /\
  get_register_expr demo_translator demo_arch "ah" "both" demo_world =
    (Raise InvalidMode, demo_world) /\
  alias_mapper demo_arch !! "bx" = None /\
  registers_size demo_arch !! "bx" = None /\
  get_register_expr demo_translator demo_arch "bx" "post" demo_world =
    (Raise (KeyError "bx"), demo_world).
Proof.
  destruct (X10_register_expr_errors demo_translator demo_arch "ah" "both" demo_world)
    as [Hmode _].
  destruct (X10_register_expr_errors demo_translator demo_arch "bx" "post" demo_world)
    as [_ Hkey].
  destruct (Hkey (or_intror eq_refl)) as (Hplain & _).
  split; [discriminate |]. split; [discriminate |].
  split; [apply Hmode; discriminate |].
  split; [vm_compute; reflexivity |]. split; [vm_compute; reflexivity |].
  apply Hplain; vm_compute; reflexivity.
Defined.

Lemma X11_witness :
  get_memory_expr demo_translator 100 4 "post" demo_world =
    (Ret (Concat 8 [Select "MEM_0" 103; Select "MEM_0" 102;
                    Select "MEM_0" 101; Select "MEM_0" 100]), demo_world) /\
  0 <= eval (fun _ => 0) (fun _ a => a)
         (Concat 8 [Select "MEM_0" 103; Select "MEM_0" 102;
                    Select "MEM_0" 101; Select "MEM_0" 100])
    < 2 ^ (8 * Z.max 0 4).
Proof.
  split; [reflexivity |].
  apply (X11_memory_expr_value_fits demo_translator 100 4 "post" demo_world _ demo_world).
  reflexivity.
Defined.

Lemma X12_witness :
  0 <= 2 /\
  get_memory_expr demo_translator 100 (2 + 2) "post" demo_world =
    (Ret (Concat 8 [Select "MEM_0" 103; Select "MEM_0" 102;
                    Select "MEM_0" 101; Select "MEM_0" 100]), demo_world) /\
  get_memory_expr demo_translator 100 2 "post" demo_world =
    (Ret (Concat 8 [Select "MEM_0" 101; Select "MEM_0" 100]), demo_world) /\
  get_memory_expr demo_translator (100 + 2) 2 "post" demo_world =
    (Ret (Concat 8 [Select "MEM_0" 103; Select "MEM_0" 102]), demo_world) /\
  eval (fun _ => 0) (fun _ a => a)
       (Concat 8 [Select "MEM_0" 103; Select "MEM_0" 102;
                  Select "MEM_0" 101; Select "MEM_0" 100]) =
    eval (fun _ => 0) (fun _ a => a) (Concat 8 [Select "MEM_0" 101; Select "MEM_0" 100]) +
    2 ^ (8 * 2) *
    eval (fun _ => 0) (fun _ a => a) (Concat 8 [Select "MEM_0" 103; Select "MEM_0" 102]).
Proof.
  split; [lia |]. split; [reflexivity |]. split; [reflexivity |].
  split; [reflexivity |].
  apply (X12_memory_expr_splits_by_address demo_translator 100 2 2 "post" demo_world
           _ _ _ demo_world demo_world demo_world); try lia; reflexivity.
Defined.

(** ** Conditional branches and the start address on concrete paths *)


Lemma C1_witness :
  reaches demo_translator always_sat true [] (block_a None None None) block_b
    [dual 16 2 [add_instr 4096]] (dual 18 2 [add_instr 4608; jcc_instr 4609])
    [add_instr 4608] 16 demo_world demo_world_at_jcc /\
  is_JCC (mnemonic (jcc_instr 4609)) = true /\
  18 + 2 - 1 = end_address (block_a None None None) /\
  check_path_satisfiability demo_translator always_sat true
      ([] ++ block_a None None None :: block_b :: [block_c]) 16 demo_world =
    (Raise AssertionError, demo_world_at_jcc).
Proof.
  assert (Hreach : reaches demo_translator always_sat true [] (block_a None None None)
            block_b [dual 16 2 [add_instr 4096]]
            (dual 18 2 [add_instr 4608; jcc_instr 4609])
            [add_instr 4608] 16 demo_world demo_world_at_jcc).
  { eexists _, _, _. split; [left; split; reflexivity |].
    split; [vm_compute; reflexivity |].
    split; [left; reflexivity |].
    split; [repeat constructor | vm_compute; reflexivity]. }
  split; [exact Hreach |]. split; [reflexivity |]. split; [reflexivity |].
  destruct (C1_unmatched_edge_fails_assertion demo_translator always_sat true
              [] (block_a None None None) block_b [block_c]
              [dual 16 2 [add_instr 4096]]
              (dual 18 2 [add_instr 4608; jcc_instr 4609]) []
              [add_instr 4608] (jcc_instr 4609) [] 16 demo_world demo_world_at_jcc
              eq_refl eq_refl Hreach eq_refl eq_refl eq_refl eq_refl eq_refl)
    as [Hdebug _].
  exact (Hdebug eq_refl).
Defined.

Lemma C2_witness :
  reaches demo_translator always_sat true [block_c]
    (block_a (Some 32) (Some 32) None) block_b
    [dual 16 2 [add_instr 4096]] (dual 18 2 [add_instr 4608; jcc_instr 4609])
    [add_instr 4608] 48 demo_world demo_world_at_later_jcc /\
  is_JCC (mnemonic (jcc_instr 4609)) = true /\
  18 + 2 - 1 = end_address (block_a (Some 32) (Some 32) None) /\
  operands (jcc_instr 4609) =
    ReilRegisterOperand "t1" 1 :: [ReilEmptyOperand; ReilImmediateOperand 8192 40] /\
  branch_is (taken_branch (block_a (Some 32) (Some 32) None)) (bb_address block_b) =
    true /\
  exists evs,
    trace (snd (check_path_satisfiability demo_translator always_sat true
                  ([block_c] ++ block_a (Some 32) (Some 32) None :: block_b :: [])
                  48 demo_world)) =
      trace demo_world_at_later_jcc ++ EvAdd (Eq (BitVec 1 "t1") 1) :: evs.
Proof.
  assert (Hreach : reaches demo_translator always_sat true [block_c]
            (block_a (Some 32) (Some 32) None) block_b
            [dual 16 2 [add_instr 4096]] (dual 18 2 [add_instr 4608; jcc_instr 4609])
            [add_instr 4608] 48 demo_world demo_world_at_later_jcc).
  { exists demo_world_after_c. eexists _, _.
    split; [right; vm_compute; reflexivity |].
    split; [vm_compute; reflexivity |].
    split; [left; reflexivity |].
    split; [repeat constructor | vm_compute; reflexivity]. }
  split; [exact Hreach |]. split; [reflexivity |]. split; [reflexivity |].
  split; [reflexivity |]. split; [reflexivity |].
  destruct (C2_branch_goal_by_edge demo_translator always_sat true
              [block_c] (block_a (Some 32) (Some 32) None) block_b []
              [dual 16 2 [add_instr 4096]]
              (dual 18 2 [add_instr 4608; jcc_instr 4609]) []
              [add_instr 4608] (jcc_instr 4609) []
              (ReilRegisterOperand "t1" 1)
              [ReilEmptyOperand; ReilImmediateOperand 8192 40]
              48 demo_world demo_world_at_later_jcc
              eq_refl eq_refl Hreach eq_refl eq_refl eq_refl) as [Htaken _].
  destruct (Htaken eq_refl (BitVec 1 "t1") (tstate demo_world_at_later_jcc) eq_refl)
    as [_ Htrace].
  exact Htrace.
Defined.

